(** * NotebookEditorTest: the execution / comm bridge of [App.tsx]

    A shallow embedding of the two variants of the React component [App]
    (the full one, [src/src/App.tsx], which hosts interactive widgets, and the
    reduced one, which only streams output), followed by the properties of
    the bridge: the guard of [executeCode], the per-message handler, the
    [classicComm] view handed to the widget manager, and the comm-target
    callback.

    The component is stateful JavaScript: React state and refs, objects of
    the Jupyter libraries that are mutated in place (kernel, futures, comms,
    the output area) and calls into those libraries.  The embedding keeps an
    explicit heap of these objects, addressed by reference, and a journal of
    the calls that leave the component.

    [Module App] and [Module AppReduced] are the code of the component.
    [Module Page] runs that code on the output area of the library, whose
    [future] accessor takes a future over from the closure of the
    component; the properties of clearing, submitting and binding are
    stated there. *)

From stdpp Require Import base option list strings gmap.

Open Scope string_scope.
Open Scope list_scope.

(** ** JSON values and JavaScript truthiness *)

(** Payloads of kernel messages.  Numbers are kept integral. *)
#[warnings="-register-all"] Inductive JValue :=
| JNull
| JBool (b : bool)
| JNumber (n : Z)
| JString (s : string)
| JArray (items : list JValue)
| JObject (fields : list (string * JValue)).

(** [ToBoolean]: [null], [false], [0] and the empty string are falsy, every
    array and every object (also the empty ones) is truthy. *)
Definition truthy (v : JValue) : bool :=
  match v with
  | JNull => false
  | JBool b => b
  | JNumber n => negb (Z.eqb n 0)
  | JString s => negb (String.eqb s "")
  | JArray _ => true
  | JObject _ => true
  end.


(** ** Messages *)

(** [nbformat.IMimeBundle]: MIME type to payload. *)
Abbreviation MimeBundle := (gmap string JValue).

Record Header := { msg_type : string }.

(** Content of an IOPub message.  Only the [data] property is inspected by
    the component; [data = None] is a content object without that property
    (stream, status, error, ...). *)
Record Content := {
  data : option MimeBundle;
  rest : list (string * JValue)
}.

Record IOPubMessage := {
  header : Header;
  content : Content
}.

(** [KernelMessage.ICommOpenMsg], [ICommMsgMsg] and [ICommCloseMsg]. *)
Record CommMessage := {
  cm_type : string;
  cm_comm_id : string;
  cm_target_name : string;
  cm_data : JValue
}.

(** ** Object references *)

Abbreviation KernelRef := nat.
Abbreviation AreaRef := nat.
Abbreviation FutureRef := nat.
Abbreviation CommRef := nat.
Abbreviation ManagerRef := nat.
Abbreviation PromiseRef := nat.

(** A callback owned by the widget manager (opaque to the component). *)
Abbreviation Callback := nat.

(** ** Heap objects *)

Record Editor := { getValue : string }.

(** [OutputArea]: the output model and the [future] property.  The
    component only clears the model and assigns [future]; the records of
    the model are added by the area itself (see [Module Page]). *)
Record OutputArea := {
  model : list IOPubMessage;
  future : option FutureRef
}.

(** The closure assigned to [future.onIOPub]: it captures [outputArea] and
    [future]. *)
Record IOPubClosure := {
  cl_outputArea : AreaRef;
  cl_future : FutureRef
}.

(** A future returned by [kernel.requestExecute]. *)
Record Future := {
  fut_kernel : KernelRef;
  fut_code : string;
  onIOPub : option IOPubClosure;
  done_watched : bool
}.

(** A comm of [@jupyterlab/services]: [onMsg] and [onClose] are single
    properties; the closures assigned to them by [classicComm] wrap one
    callback each. *)
Record Comm := {
  commId : string;
  targetName : string;
  onMsg : option Callback;
  onClose : option Callback;
  isClosed : bool
}.

(** A kernel connection: its name, the comm targets registered on it and
    whether the continuation of [startNew().then] is still suspended at
    [await createFakeContext(kernel)]. *)
Record Kernel := {
  kernel_name : string;
  targets : list string;
  awaiting_context : bool
}.

(** The promise returned by [set_state(widgetState)], with the reactions of
    [.then(...).catch(...)] attached. *)
Record SetStatePromise := {
  pr_widgetState : JValue;
  pr_settled : bool
}.

(** The object literal [classicComm]: two data properties and five methods
    closing over [comm]. *)
Record ClassicCommView := {
  comm_id : string;
  target_name : string;
  view_comm : CommRef
}.

(** ** The world: React state, refs and the heap *)

Record World := {
  editorRef : option Editor;
  kernel : option KernelRef;
  outputArea : option AreaRef;
  managerRef : option ManagerRef;
  kernelStarted : bool;
  kernels : list Kernel;
  areas : list OutputArea;
  futures : list Future;
  comms : list Comm;
  managers : nat;
  promises : list SetStatePromise
}.

Definition initial : World :=
  {| editorRef := None; kernel := None; outputArea := None;
     managerRef := None; kernelStarted := false;
     kernels := []; areas := []; futures := []; comms := [];
     managers := 0; promises := [] |}.

(** ** Calls that leave the component *)

Inductive Arg :=
| AUndefined
| AString (s : string)
| AValue (v : JValue)
| AMessage (m : IOPubMessage)
| AError (e : JValue).

Inductive Effect :=
| ConsoleLog (text : string) (args : list Arg)
| ConsoleError (text : string) (args : list Arg)
| ModelClear (a : AreaRef)
| RequestExecute (k : KernelRef) (code : string) (f : FutureRef)
| SetFuture (a : AreaRef) (f : FutureRef)
| SetState (m : ManagerRef) (widgetState : JValue) (p : PromiseRef)
| HandleCommOpen (m : ManagerRef) (view : ClassicCommView) (msg : CommMessage)
| RegisterCommTarget (k : KernelRef) (name : string)
| CommSend (c : CommRef) (payload : JValue) (metadata : option JValue)
    (buffers : option (list (list Z)))
| CommClose (c : CommRef)
| Invoke (cb : Callback) (msg : CommMessage).

(** ** The monad of component code: state and journal *)

Definition Js (A : Type) : Type := World -> A * World * list Effect.

Definition value {A} (r : A * World * list Effect) : A := r.1.1.
Definition world {A} (r : A * World * list Effect) : World := r.1.2.
Definition effects {A} (r : A * World * list Effect) : list Effect := r.2.

#[global] Instance Js_ret : MRet Js := fun A a w => (a, w, []).
#[global] Instance Js_bind : MBind Js := fun A B k m w =>
  let '(a, w1, j1) := m w in
  let '(b, w2, j2) := k a w1 in
  (b, w2, j1 ++ j2).

Definition emit (e : Effect) : Js unit := fun w => (tt, w, [e]).
Definition read {A} (f : World -> A) : Js A := fun w => (f w, w, []).
Definition update (f : World -> World) : Js unit := fun w => (tt, f w, []).

Definition console_log (text : string) (args : list Arg) : Js unit :=
  emit (ConsoleLog text args).
Definition console_error (text : string) (args : list Arg) : Js unit :=
  emit (ConsoleError text args).

(** ** Field updates *)

Definition with_editorRef (e : option Editor) (w : World) : World :=
  {| editorRef := e; kernel := kernel w; outputArea := outputArea w;
     managerRef := managerRef w; kernelStarted := kernelStarted w;
     kernels := kernels w; areas := areas w; futures := futures w;
     comms := comms w; managers := managers w; promises := promises w |}.

Definition with_kernel (k : option KernelRef) (w : World) : World :=
  {| editorRef := editorRef w; kernel := k; outputArea := outputArea w;
     managerRef := managerRef w; kernelStarted := kernelStarted w;
     kernels := kernels w; areas := areas w; futures := futures w;
     comms := comms w; managers := managers w; promises := promises w |}.

Definition with_outputArea (a : option AreaRef) (w : World) : World :=
  {| editorRef := editorRef w; kernel := kernel w; outputArea := a;
     managerRef := managerRef w; kernelStarted := kernelStarted w;
     kernels := kernels w; areas := areas w; futures := futures w;
     comms := comms w; managers := managers w; promises := promises w |}.

Definition with_managerRef (m : option ManagerRef) (w : World) : World :=
  {| editorRef := editorRef w; kernel := kernel w; outputArea := outputArea w;
     managerRef := m; kernelStarted := kernelStarted w;
     kernels := kernels w; areas := areas w; futures := futures w;
     comms := comms w; managers := managers w; promises := promises w |}.

Definition with_kernelStarted (b : bool) (w : World) : World :=
  {| editorRef := editorRef w; kernel := kernel w; outputArea := outputArea w;
     managerRef := managerRef w; kernelStarted := b;
     kernels := kernels w; areas := areas w; futures := futures w;
     comms := comms w; managers := managers w; promises := promises w |}.

Definition with_kernels (ks : list Kernel) (w : World) : World :=
  {| editorRef := editorRef w; kernel := kernel w; outputArea := outputArea w;
     managerRef := managerRef w; kernelStarted := kernelStarted w;
     kernels := ks; areas := areas w; futures := futures w;
     comms := comms w; managers := managers w; promises := promises w |}.

Definition with_areas (l : list OutputArea) (w : World) : World :=
  {| editorRef := editorRef w; kernel := kernel w; outputArea := outputArea w;
     managerRef := managerRef w; kernelStarted := kernelStarted w;
     kernels := kernels w; areas := l; futures := futures w;
     comms := comms w; managers := managers w; promises := promises w |}.

Definition with_futures (l : list Future) (w : World) : World :=
  {| editorRef := editorRef w; kernel := kernel w; outputArea := outputArea w;
     managerRef := managerRef w; kernelStarted := kernelStarted w;
     kernels := kernels w; areas := areas w; futures := l;
     comms := comms w; managers := managers w; promises := promises w |}.

Definition with_comms (l : list Comm) (w : World) : World :=
  {| editorRef := editorRef w; kernel := kernel w; outputArea := outputArea w;
     managerRef := managerRef w; kernelStarted := kernelStarted w;
     kernels := kernels w; areas := areas w; futures := futures w;
     comms := l; managers := managers w; promises := promises w |}.

Definition with_managers (n : nat) (w : World) : World :=
  {| editorRef := editorRef w; kernel := kernel w; outputArea := outputArea w;
     managerRef := managerRef w; kernelStarted := kernelStarted w;
     kernels := kernels w; areas := areas w; futures := futures w;
     comms := comms w; managers := n; promises := promises w |}.

Definition with_promises (l : list SetStatePromise) (w : World) : World :=
  {| editorRef := editorRef w; kernel := kernel w; outputArea := outputArea w;
     managerRef := managerRef w; kernelStarted := kernelStarted w;
     kernels := kernels w; areas := areas w; futures := futures w;
     comms := comms w; managers := managers w; promises := l |}.

(** ** The library calls the component makes *)

(** [outputArea.model.clear()] *)
Definition clear_model (o : OutputArea) : OutputArea :=
  {| model := []; future := future o |}.

Definition model_clear (a : AreaRef) : Js unit :=
  emit (ModelClear a) ;;
  update (fun w => with_areas (alter clear_model a (areas w)) w).

(** [outputArea.future = future], as the component writes it: a call on
    the output area that leaves it bound to [future].  What the accessor
    of the library does besides is in [Module Page]. *)
Definition bind_future (f : FutureRef) (o : OutputArea) : OutputArea :=
  {| model := model o; future := Some f |}.

Definition set_future (a : AreaRef) (f : FutureRef) : Js unit :=
  emit (SetFuture a f) ;;
  update (fun w => with_areas (alter (bind_future f) a (areas w)) w).

(** [kernel.requestExecute({ code })]: a new future object. *)
Definition requestExecute (k : KernelRef) (code : string) : Js FutureRef :=
  f ← read (fun w => length (futures w)) ;
  update (fun w => with_futures
    (futures w ++ [{| fut_kernel := k; fut_code := code;
                      onIOPub := None; done_watched := false |}]) w) ;;
  emit (RequestExecute k code f) ;;
  mret f.

(** [future.onIOPub = (msg) => { ... }] *)
Definition assign_onIOPub (cl : IOPubClosure) (fu : Future) : Future :=
  {| fut_kernel := fut_kernel fu; fut_code := fut_code fu;
     onIOPub := Some cl; done_watched := done_watched fu |}.

Definition set_onIOPub (f : FutureRef) (cl : IOPubClosure) : Js unit :=
  update (fun w => with_futures (alter (assign_onIOPub cl) f (futures w)) w).

(** [future.done.then(...).catch(...)] *)
Definition watch_done (fu : Future) : Future :=
  {| fut_kernel := fut_kernel fu; fut_code := fut_code fu;
     onIOPub := onIOPub fu; done_watched := true |}.

Definition done_then_catch (f : FutureRef) : Js unit :=
  update (fun w => with_futures (alter watch_done f (futures w)) w).

(** [manager.set_state(widgetState)]: a new pending promise. *)
Definition set_state (m : ManagerRef) (widgetState : JValue) : Js PromiseRef :=
  p ← read (fun w => length (promises w)) ;
  update (fun w => with_promises
    (promises w ++ [{| pr_widgetState := widgetState; pr_settled := false |}]) w) ;;
  emit (SetState m widgetState p) ;;
  mret p.

(** [new JupyterLabManager(context, rendermime, { saveState: false })] *)
Definition new_manager : Js ManagerRef :=
  m ← read managers ;
  update (fun w => with_managers (S (managers w)) w) ;;
  mret m.

(** [new OutputArea({ model: model.outputs, ... })] over a fresh
    [CodeCellModel]: no outputs, no future. *)
Definition new_outputArea : Js AreaRef :=
  a ← read (fun w => length (areas w)) ;
  update (fun w => with_areas (areas w ++ [{| model := []; future := None |}]) w) ;;
  mret a.

(** [kernel.registerCommTarget(name, callback)]: one callback per name. *)
Definition add_target (name : string) (k : Kernel) : Kernel :=
  {| kernel_name := kernel_name k;
     targets := name :: filter (fun n => n ≠ name) (targets k);
     awaiting_context := awaiting_context k |}.

Definition registerCommTarget (k : KernelRef) (name : string) : Js unit :=
  emit (RegisterCommTarget k name) ;;
  update (fun w => with_kernels (alter (add_target name) k (kernels w)) w).

(** Reading through a captured [comm] reference. *)
Definition no_comm : Comm :=
  {| commId := ""; targetName := ""; onMsg := None; onClose := None;
     isClosed := false |}.

Definition comm_at (c : CommRef) (w : World) : Comm := default no_comm (comms w !! c).

(** [comm.onMsg = ...] and [comm.onClose = ...] *)
Definition assign_onMsg (cb : Callback) (c : Comm) : Comm :=
  {| commId := commId c; targetName := targetName c; onMsg := Some cb;
     onClose := onClose c; isClosed := isClosed c |}.

Definition assign_onClose (cb : Callback) (c : Comm) : Comm :=
  {| commId := commId c; targetName := targetName c; onMsg := onMsg c;
     onClose := Some cb; isClosed := isClosed c |}.

Definition set_onMsg (c : CommRef) (cb : Callback) : Js unit :=
  update (fun w => with_comms (alter (assign_onMsg cb) c (comms w)) w).

Definition set_onClose (c : CommRef) (cb : Callback) : Js unit :=
  update (fun w => with_comms (alter (assign_onClose cb) c (comms w)) w).

(** [comm.send(data, metadata, buffers)] and [comm.close()] *)
Definition comm_send (c : CommRef) (payload : JValue) (metadata : option JValue)
    (buffers : option (list (list Z))) : Js unit :=
  emit (CommSend c payload metadata buffers).

Definition mark_closed (c : Comm) : Comm :=
  {| commId := commId c; targetName := targetName c; onMsg := onMsg c;
     onClose := onClose c; isClosed := true |}.

Definition comm_close (c : CommRef) : Js unit :=
  emit (CommClose c) ;;
  update (fun w => with_comms (alter mark_closed c (comms w)) w).

(** The MIME key of a widget-state bundle and the comm target of widgets. *)
Definition WIDGET_STATE_MIME : string := "application/vnd.jupyter.widget-state+json".
Definition WIDGET_TARGET : string := "jupyter.widget".

(** [editorRef.current?.getValue()]: [None] is [undefined]. *)
Definition current_code (w : World) : option string := getValue <$> editorRef w.

Definition arg_of_code (code : option string) : Arg :=
  match code with
  | Some s => AString s
  | None => AUndefined
  end.

(** [ToBoolean(code)]: [undefined] and the empty string are falsy. *)
Definition code_truthy (code : option string) : bool :=
  match code with
  | Some s => negb (String.eqb s "")
  | None => false
  end.

(** The test [kernel && code && outputArea] of [executeCode], with the
    values it narrows to in the [then] branch. *)
Definition guard (k : option KernelRef) (code : option string)
    (o : option AreaRef) : option (KernelRef * string * AreaRef) :=
  match k, code, o with
  | Some kernel, Some code, Some outputArea =>
      if code_truthy (Some code) then Some (kernel, code, outputArea) else None
  | _, _, _ => None
  end.

(** ** The full variant, [src/src/App.tsx] *)

Module App.

(** The test of the [if] inside the handler:
    [msg.header.msg_type === "display_data" && "data" in msg.content &&
     msg.content.data[MIME]]. *)
Definition widget_state (msg : IOPubMessage) : option JValue :=
  if String.eqb (msg_type (header msg)) "display_data" then
    match data (content msg) with
    | Some bundle =>
        match bundle !! WIDGET_STATE_MIME with
        | Some v => if truthy v then Some v else None
        | None => None
        end
    | None => None
    end
  else None.

(** The reactions attached to the promise of [set_state]. *)
Definition set_state_then (widgetState : JValue) : Js unit :=
  console_log "Widget state has been applied successfully:" [AValue widgetState].

Definition set_state_catch (err : JValue) : Js unit :=
  console_error "Failed to apply widget state:" [AError err].

(** The closure assigned to [future.onIOPub] (lines 162-189). *)
Definition handle_iopub (outputArea : AreaRef) (future : FutureRef)
    (msg : IOPubMessage) : Js unit :=
  set_future outputArea future ;;
  match widget_state msg with
  | Some widgetState =>
      manager ← read managerRef ;
      match manager with
      | Some m => _ ← set_state m widgetState ; mret tt
      | None => mret tt
      end
  | None => mret tt
  end ;;
  console_log "Message received:" [AMessage msg].

(** The reactions attached to [future.done]. *)
Definition done_then : Js unit := console_log "Execution completed" [].
Definition done_catch (err : JValue) : Js unit :=
  console_error "Execution error:" [AError err].

(** [executeCode] (lines 154-206). *)
Definition executeCode : Js unit :=
  code ← read current_code ;
  console_log "Executing code:" [arg_of_code code] ;;
  k ← read kernel ;
  o ← read outputArea ;
  match guard k code o with
  | Some (kernel, code, outputArea) =>
      model_clear outputArea ;;
      future ← requestExecute kernel code ;
      set_onIOPub future {| cl_outputArea := outputArea; cl_future := future |} ;;
      done_then_catch future
  | None =>
      (if k is None then console_error "Kernel not initialized." [] else mret tt) ;;
      (if o is None then console_error "Output area not initialized." [] else mret tt)
  end.

(** *** The channel adapter (lines 88-118) *)

(** The object literal [classicComm] built for [comm]. *)
Definition classicComm (c : CommRef) (comm : Comm) : ClassicCommView :=
  {| comm_id := commId comm; target_name := targetName comm; view_comm := c |}.

(** The closures assigned to [comm.onMsg] and [comm.onClose]:
    [(msg) => { callback(msg); }]. *)
Definition onMsg_closure (callback : Callback) (msg : CommMessage) : Js unit :=
  emit (Invoke callback msg).

Definition onClose_closure (callback : Callback) (msg : CommMessage) : Js unit :=
  emit (Invoke callback msg).

Definition on_msg (view : ClassicCommView) (callback : Callback) : Js unit :=
  set_onMsg (view_comm view) callback.

Definition on_close (view : ClassicCommView) (callback : Callback) : Js unit :=
  set_onClose (view_comm view) callback.

Definition send (view : ClassicCommView) (payload : JValue)
    (callbacks metadata : option JValue) (buffers : option (list (list Z)))
    : Js string :=
  comm_send (view_comm view) payload metadata buffers ;;
  read (fun w => commId (comm_at (view_comm view) w)).

Definition close (view : ClassicCommView) : Js string :=
  comm_close (view_comm view) ;;
  read (fun w => commId (comm_at (view_comm view) w)).

Definition open (view : ClassicCommView) : Js string :=
  tn ← read (fun w => targetName (comm_at (view_comm view) w)) ;
  console_log "Comm channel opened" [AString tn] ;;
  read (fun w => commId (comm_at (view_comm view) w)).

(** *** The comm registrar (lines 87-121) *)

(** The callback registered for ["jupyter.widget"]. *)
Definition on_comm_open (c : CommRef) (msg : CommMessage) : Js unit :=
  comm ← read (comm_at c) ;
  let classicComm := classicComm c comm in
  manager ← read managerRef ;
  match manager with
  | Some m => emit (HandleCommOpen m classicComm msg)
  | None => mret tt
  end.

(** *** Start-up (lines 63-151) *)

(** The token input ([setToken]) and the clean-up of the effect
    ([kernel?.shutdown().catch(console.error)], run when the token changes
    again) are not among the tasks below; no property below is about the
    calls they make. *)

(** [kernelManager.startNew()] fulfils with a new connection and the
    continuation runs up to [await createFakeContext(kernel)]. *)
Definition kernel_started (name : string) : Js unit :=
  k ← read (fun w => length (kernels w)) ;
  update (fun w => with_kernels
    (kernels w ++ [{| kernel_name := name; targets := [];
                      awaiting_context := true |}]) w) ;;
  update (with_kernel (Some k)).

Definition resume (k : Kernel) : Kernel :=
  {| kernel_name := kernel_name k; targets := targets k;
     awaiting_context := false |}.

(** The continuation after the [await]; [outputRef_current] tells whether
    [outputRef.current] is set. *)
Definition context_ready (k : KernelRef) (outputRef_current : bool) : Js unit :=
  update (fun w => with_kernels (alter resume k (kernels w)) w) ;;
  m ← new_manager ;
  update (with_managerRef (Some m)) ;;
  registerCommTarget k WIDGET_TARGET ;;
  console_log "Widget manager initialized" [] ;;
  (if outputRef_current then
     a ← new_outputArea ;
     update (with_outputArea (Some a))
   else mret tt) ;;
  update (with_kernelStarted true).

(** The [.catch] of the start-up chain. *)
Definition start_failed (err : JValue) : Js unit :=
  console_error "Kernel start error:" [AError err].

(** [handleEditorDidMount] *)
Definition handleEditorDidMount (editor : Editor) : Js unit :=
  update (with_editorRef (Some editor)).

(** *** The event loop *)

(** What the widget manager may call on a view it was handed. *)
Inductive ViewCall :=
| CallOnMsg (callback : Callback)
| CallOnClose (callback : Callback)
| CallSend (payload : JValue) (callbacks metadata : option JValue)
    (buffers : option (list (list Z)))
| CallClose
| CallOpen.

Definition view_call (view : ClassicCommView) (call : ViewCall) : Js unit :=
  match call with
  | CallOnMsg cb => on_msg view cb
  | CallOnClose cb => on_close view cb
  | CallSend d cbs md bufs => _ ← send view d cbs md bufs ; mret tt
  | CallClose => _ ← close view ; mret tt
  | CallOpen => _ ← open view ; mret tt
  end.

(** One task of the event loop, as delivered by the browser, the kernel
    connection or the widget manager. *)
Inductive Event :=
| KernelStarts (name : string)
| ContextReady (k : KernelRef) (outputRef_current : bool)
| StartFails (err : JValue)
| EditorMounts (text : string)
| EditorChanges (text : string)
| ClickRun
| IOPub (f : FutureRef) (msg : IOPubMessage)
| FutureSettles (f : FutureRef) (err : option JValue)
| SetStateSettles (p : PromiseRef) (err : option JValue)
| CommOpens (k : KernelRef) (msg : CommMessage)
| CommReceives (c : CommRef) (msg : CommMessage)
| CommClosed (c : CommRef) (msg : CommMessage)
| ManagerCalls (c : CommRef) (call : ViewCall).

(** The kernel connection dispatching a message of a future to its
    [onIOPub] property. *)
Definition deliver_iopub (f : FutureRef) (msg : IOPubMessage) : Js unit :=
  fu ← read (fun w => futures w !! f) ;
  match fu ≫= onIOPub with
  | Some cl => handle_iopub (cl_outputArea cl) (cl_future cl) msg
  | None => mret tt
  end.

(** [future.done] settles: the reactions attached by [executeCode] run. *)
Definition settle_done (f : FutureRef) (err : option JValue) : Js unit :=
  fu ← read (fun w => futures w !! f) ;
  match fu with
  | Some fu =>
      if done_watched fu then
        match err with
        | None => done_then
        | Some e => done_catch e
        end
      else mret tt
  | None => mret tt
  end.

Definition mark_settled (p : SetStatePromise) : SetStatePromise :=
  {| pr_widgetState := pr_widgetState p; pr_settled := true |}.

(** The promise of a [set_state] call settles (once): [.then] runs when
    it fulfils, [.catch] when it rejects. *)
Definition settle_set_state (p : PromiseRef) (err : option JValue) : Js unit :=
  pr ← read (fun w => promises w !! p) ;
  match pr with
  | Some pr =>
      if pr_settled pr then mret tt
      else
        update (fun w => with_promises (alter mark_settled p (promises w)) w) ;;
        match err with
        | None => set_state_then (pr_widgetState pr)
        | Some e => set_state_catch e
        end
  | None => mret tt
  end.

(** The kernel connection handling a [comm_open] message: a comm object
    is created and handed to the callback of its target, if one is
    registered. *)
Definition deliver_comm_open (k : KernelRef) (msg : CommMessage) : Js unit :=
  kn ← read (fun w => kernels w !! k) ;
  match kn with
  | Some kn =>
      if bool_decide (cm_target_name msg ∈ targets kn) then
        c ← read (fun w => length (comms w)) ;
        update (fun w => with_comms
          (comms w ++ [{| commId := cm_comm_id msg;
                          targetName := cm_target_name msg;
                          onMsg := None; onClose := None;
                          isClosed := false |}]) w) ;;
        on_comm_open c msg
      else mret tt
  | None => mret tt
  end.

(** The kernel connection dispatching a [comm_msg] / [comm_close] message
    to the [onMsg] / [onClose] property of its comm. *)
Definition deliver_comm_msg (c : CommRef) (msg : CommMessage) : Js unit :=
  comm ← read (fun w => comms w !! c) ;
  match comm ≫= onMsg with
  | Some callback => onMsg_closure callback msg
  | None => mret tt
  end.

Definition deliver_comm_close (c : CommRef) (msg : CommMessage) : Js unit :=
  comm ← read (fun w => comms w !! c) ;
  match comm ≫= onClose with
  | Some callback => onClose_closure callback msg
  | None => mret tt
  end.

Definition step (e : Event) : Js unit :=
  match e with
  | KernelStarts name => kernel_started name
  | ContextReady k outputRef_current =>
      kn ← read (fun w => kernels w !! k) ;
      match kn with
      | Some kn =>
          if awaiting_context kn then context_ready k outputRef_current
          else mret tt
      | None => mret tt
      end
  | StartFails err => start_failed err
  | EditorMounts text => handleEditorDidMount {| getValue := text |}
  | EditorChanges text =>
      ed ← read editorRef ;
      if ed is Some _ then update (with_editorRef (Some {| getValue := text |}))
      else mret tt
  | ClickRun =>
      started ← read kernelStarted ;
      if (started : bool) then executeCode else mret tt
  | IOPub f msg => deliver_iopub f msg
  | FutureSettles f err => settle_done f err
  | SetStateSettles p err => settle_set_state p err
  | CommOpens k msg => deliver_comm_open k msg
  | CommReceives c msg => deliver_comm_msg c msg
  | CommClosed c msg => deliver_comm_close c msg
  | ManagerCalls c call =>
      comm ← read (fun w => comms w !! c) ;
      match comm with
      | Some comm => view_call (classicComm c comm) call
      | None => mret tt
      end
  end.

Fixpoint run (events : list Event) : Js unit :=
  match events with
  | [] => mret tt
  | e :: events => step e ;; run events
  end.

End App.

(** ** The reduced variant (no widgets) *)

Module AppReduced.

(** The closure assigned to [future.onIOPub] (lines 130-133). *)
Definition handle_iopub (outputArea : AreaRef) (future : FutureRef)
    (msg : IOPubMessage) : Js unit :=
  set_future outputArea future ;;
  console_log "Message received:" [AMessage msg].

(** [executeCode] (lines 122-150). *)
Definition executeCode : Js unit :=
  code ← read current_code ;
  console_log "Executing code:" [arg_of_code code] ;;
  k ← read kernel ;
  o ← read outputArea ;
  match guard k code o with
  | Some (kernel, code, outputArea) =>
      model_clear outputArea ;;
      future ← requestExecute kernel code ;
      set_onIOPub future {| cl_outputArea := outputArea; cl_future := future |} ;;
      done_then_catch future
  | None =>
      (if k is None then console_error "Kernel not initialized." [] else mret tt) ;;
      (if o is None then console_error "Output area not initialized." [] else mret tt)
  end.

Definition deliver_iopub (f : FutureRef) (msg : IOPubMessage) : Js unit :=
  fu ← read (fun w => futures w !! f) ;
  match fu ≫= onIOPub with
  | Some cl => handle_iopub (cl_outputArea cl) (cl_future cl) msg
  | None => mret tt
  end.

End AppReduced.

(** ** The page: the component on the output area of the library *)

(** [Module App] follows the code of the component and takes the objects
    of the libraries as records: [outputArea.future = future] is a call
    that leaves the area bound, and a message of a future is handed to
    the closure [executeCode] assigned to [onIOPub].  On the page that
    assignment runs the accessor of [OutputArea]
    ([@jupyterlab/outputarea]), which takes the future over: the future
    bound before is disposed of, the model is cleared and the handler of
    the area replaces the closure, so that the closure runs for the first
    message of a future only and the messages that follow are added to
    the model by the area.  [Module Page] is the event loop with that
    accessor; the code of the component is the one of [Module App]. *)

(** The kinds of message the handler of an output area adds to its
    model. *)
Definition is_output (msg : IOPubMessage) : bool :=
  let kind := msg_type (header msg) in
  String.eqb kind "execute_result" || String.eqb kind "display_data" ||
  String.eqb kind "stream" || String.eqb kind "error".

(** [OutputArea._onIOPub], the handler an area installs on the future it
    is bound to: a message of one of these kinds becomes a record of the
    model.  [model] lists the records added since the model was last
    cleared by the component or by the accessor; the merging of adjacent
    stream records inside the model and the kinds that rewrite records
    ([update_display_data], [clear_output]) are not followed. *)
Definition render (msg : IOPubMessage) (o : OutputArea) : OutputArea :=
  if is_output msg then {| model := model o ++ [msg]; future := future o |}
  else o.

(** The area whose handler is installed on future [f]: the area bound to
    it. *)
Definition bound_area (f : FutureRef) (w : World) : option AreaRef :=
  fst <$> list_find (fun o => future o = Some f) (areas w).

Module Page.

(** The closure of the component is taken off a future: by [dispose()],
    which removes the handlers, or by [value.onIOPub = this._onIOPub].
    [onIOPub] holds the closure of the component only; the handler of an
    area is in place on the future the area is bound to. *)
Definition drop_closure (fu : Future) : Future :=
  {| fut_kernel := fut_kernel fu; fut_code := fut_code fu;
     onIOPub := None; done_watched := done_watched fu |}.

(** [this._future = value; this.model.clear()] *)
Definition take_over (f : FutureRef) (o : OutputArea) : OutputArea :=
  {| model := []; future := Some f |}.

(** The accessor [set future(value)] of [OutputArea], behind
    [outputArea.future = future]: nothing if the area is bound to [value]
    already; otherwise the future bound before is disposed of, the area
    is bound to [value], its model is cleared and its handler replaces
    [value.onIOPub].  A [done] promise that disposal rejects settles in a
    later task ([FutureSettles]). *)
Definition assign_future (a : AreaRef) (f : FutureRef) : Js unit :=
  emit (SetFuture a f) ;;
  area ← read (fun w => areas w !! a) ;
  match area with
  | Some area =>
      if bool_decide (future area = Some f) then mret tt
      else
        match future area with
        | Some g =>
            update (fun w => with_futures (alter drop_closure g (futures w)) w)
        | None => mret tt
        end ;;
        update (fun w => with_areas (alter (take_over f) a (areas w)) w) ;;
        update (fun w => with_futures (alter drop_closure f (futures w)) w)
  | None => mret tt
  end.

(** The closure assigned to [future.onIOPub] (lines 162-189), on the
    page. *)
Definition handle_iopub (outputArea : AreaRef) (future : FutureRef)
    (msg : IOPubMessage) : Js unit :=
  assign_future outputArea future ;;
  match App.widget_state msg with
  | Some widgetState =>
      manager ← read managerRef ;
      match manager with
      | Some m => _ ← set_state m widgetState ; mret tt
      | None => mret tt
      end
  | None => mret tt
  end ;;
  console_log "Message received:" [AMessage msg].

(** The kernel connection dispatching a message of a future: to the
    closure of the component while it is installed, then to the handler
    of the area bound to the future; a future that was disposed of
    receives nothing. *)
Definition deliver_iopub (f : FutureRef) (msg : IOPubMessage) : Js unit :=
  fu ← read (fun w => futures w !! f) ;
  match fu ≫= onIOPub with
  | Some cl => handle_iopub (cl_outputArea cl) (cl_future cl) msg
  | None =>
      a ← read (bound_area f) ;
      match a with
      | Some a => update (fun w => with_areas (alter (render msg) a (areas w)) w)
      | None => mret tt
      end
  end.

(** One task of the event loop of the page. *)
Definition step (e : App.Event) : Js unit :=
  match e with
  | App.IOPub f msg => deliver_iopub f msg
  | _ => App.step e
  end.

Fixpoint run (events : list App.Event) : Js unit :=
  match events with
  | [] => mret tt
  | e :: events => step e ;; run events
  end.

(** The states the page can be in. *)
Definition reachable (w : World) : Prop :=
  ∃ events, w = world (run events initial).

End Page.

(** ** Observations on the journal *)

Definition is_request (e : Effect) : bool :=
  match e with RequestExecute _ _ _ => true | _ => false end.

Definition is_model_clear (e : Effect) : bool :=
  match e with ModelClear _ => true | _ => false end.

Definition is_set_future (e : Effect) : bool :=
  match e with SetFuture _ _ => true | _ => false end.

Definition is_set_state (e : Effect) : bool :=
  match e with SetState _ _ _ => true | _ => false end.

Definition is_console (e : Effect) : bool :=
  match e with ConsoleLog _ _ | ConsoleError _ _ => true | _ => false end.

Definition is_console_error (e : Effect) : bool :=
  match e with ConsoleError _ _ => true | _ => false end.

Definition is_handle_comm_open (e : Effect) : bool :=
  match e with HandleCommOpen _ _ _ => true | _ => false end.

(** How often a kind of call occurs in a journal. *)
Fixpoint count (p : Effect -> bool) (journal : list Effect) : nat :=
  match journal with
  | [] => 0
  | e :: journal => (if p e then 1 else 0) + count p journal
  end.

(** The model of an output area, read through a reference. *)
Definition model_of (a : AreaRef) (w : World) : option (list IOPubMessage) :=
  model <$> areas w !! a.

Definition future_of (a : AreaRef) (w : World) : option FutureRef :=
  areas w !! a ≫= future.

(** ** Derived notions used in the statements *)

(** The journal of [executeCode] when its guard fails. *)
Definition skip_journal (w : World) : list Effect :=
  ConsoleLog "Executing code:" [arg_of_code (current_code w)]
  :: (if kernel w is None then [ConsoleError "Kernel not initialized." []] else [])
  ++ (if outputArea w is None then [ConsoleError "Output area not initialized." []]
      else []).

(** The world after [executeCode] has submitted [c] on kernel [k] with
    output area [o]. *)
Definition submitted (k : KernelRef) (o : AreaRef) (c : string) (w : World) : World :=
  let f := length (futures w) in
  with_futures
    (alter watch_done f
       (alter (assign_onIOPub {| cl_outputArea := o; cl_future := f |}) f
          (futures w ++ [{| fut_kernel := k; fut_code := c; onIOPub := None;
                            done_watched := false |}])))
    (with_areas (alter clear_model o (areas w)) w).

(** The world after [outputArea.future = future] on area [a]. *)
Definition bound (a : AreaRef) (f : FutureRef) (w : World) : World :=
  with_areas (alter (bind_future f) a (areas w)) w.

(** The world after a [set_state(widgetState)] call. *)
Definition hydrating (widgetState : JValue) (w : World) : World :=
  with_promises
    (promises w ++ [{| pr_widgetState := widgetState; pr_settled := false |}]) w.

(** A session that is up: kernel started, widget manager and output area
    created, editor mounted with [code]. *)
Definition ready_world (code : string) : World :=
  world (App.run [App.KernelStarts "python3"; App.ContextReady 0 true;
                  App.EditorMounts code] initial).



(** Sample messages. *)
Definition stream_msg : IOPubMessage :=
  {| header := {| msg_type := "stream" |};
     content := {| data := None; rest := [("text", JString "2")] |} |}.

Definition display_msg (bundle : MimeBundle) : IOPubMessage :=
  {| header := {| msg_type := "display_data" |};
     content := {| data := Some bundle; rest := [] |} |}.

(** A session that has just submitted ["1+1"]: future [0] is in flight. *)
Definition running_world : World :=
  world (App.executeCode (ready_world "1+1")).

(** A session on which the kernel has opened the widget comm ["c1"]. *)
Definition open_msg : CommMessage :=
  {| cm_type := "comm_open"; cm_comm_id := "c1";
     cm_target_name := "jupyter.widget"; cm_data := JObject [] |}.

Definition comm_world : World :=
  world (App.run [App.KernelStarts "python3"; App.ContextReady 0 true;
                  App.CommOpens 0 open_msg] initial).

Definition c1 : Comm :=
  {| commId := "c1"; targetName := "jupyter.widget"; onMsg := None;
     onClose := None; isClosed := false |}.

(** The same session after a widget-state message: the promise of
    [set_state] is pending. *)
Definition widget_msg : IOPubMessage :=
  display_msg {[ WIDGET_STATE_MIME := JObject [("model-A", JObject [])] ]}.

Definition hydrating_world : World :=
  world (App.deliver_iopub 0 widget_msg running_world).

(** Worlds the event loop can be in. *)
Definition reachable (w : World) : Prop :=
  ∃ events, w = world (App.run events initial).

(** References are live, every future carries the closure [executeCode]
    gave it, and the widget manager exists as soon as an output area, a
    future or a comm target does. *)
Record wf (w : World) : Prop := {
  wf_outputArea : ∀ o, outputArea w = Some o → o < length (areas w);
  wf_onIOPub : ∀ f fu, futures w !! f = Some fu →
    ∃ a, onIOPub fu = Some {| cl_outputArea := a; cl_future := f |} ∧
         a < length (areas w);
  wf_manager : managerRef w = None →
    outputArea w = None ∧ futures w = [] ∧
    ∀ k kn, kernels w !! k = Some kn → targets kn = [];
  wf_targets : ∀ k kn, kernels w !! k = Some kn → targets kn ⊆ [WIDGET_TARGET]
}.

(** The views handed to the widget manager for comm [c]. *)
Definition views_of (c : CommRef) (journal : list Effect) : list ClassicCommView :=
  omap (fun e => match e with
                 | HandleCommOpen _ view _ =>
                     if decide (view_comm view = c) then Some view else None
                 | _ => None
                 end) journal.

(** Registering callbacks one after the other. *)
Fixpoint register_all (register : Callback -> Js unit) (callbacks : list Callback)
    : Js unit :=
  match callbacks with
  | [] => mret tt
  | cb :: callbacks => register cb ;; register_all register callbacks
  end.


(** Marking one [set_state] promise as settled. *)
Definition settled_at (p : PromiseRef) (w : World) : World :=
  with_promises (alter App.mark_settled p (promises w)) w.

(** [e] is not the settlement of promise [p]. *)
Definition other_than_settle (p : PromiseRef) (e : App.Event) : bool :=
  match e with
  | App.SetStateSettles q _ => negb (Nat.eqb q p)
  | _ => true
  end.

(** A session on which the kernel has opened two widget comms. *)
Definition open_msg2 : CommMessage :=
  {| cm_type := "comm_open"; cm_comm_id := "c2";
     cm_target_name := "jupyter.widget"; cm_data := JObject [] |}.

Definition two_comm_world : World :=
  world (App.run [App.KernelStarts "python3"; App.ContextReady 0 true;
                  App.CommOpens 0 open_msg; App.CommOpens 0 open_msg2] initial).

Definition c2 : Comm :=
  {| commId := "c2"; targetName := "jupyter.widget"; onMsg := None;
     onClose := None; isClosed := false |}.

(** ** What a journal records, and the coherence of a session *)

(** The submissions recorded in a journal, oldest first. *)
Definition requests (journal : list Effect)
    : list (KernelRef * string * FutureRef) :=
  omap (fun e => match e with
                 | RequestExecute k c f => Some (k, c, f)
                 | _ => None
                 end) journal.

(** The [set_state] calls recorded in a journal. *)
Definition hydrations (journal : list Effect) : list (JValue * PromiseRef) :=
  omap (fun e => match e with
                 | SetState _ widgetState p => Some (widgetState, p)
                 | _ => None
                 end) journal.

(** The comm targets registered in a journal. *)
Definition registrations (journal : list Effect) : list (KernelRef * string) :=
  omap (fun e => match e with
                 | RegisterCommTarget k name => Some (k, name)
                 | _ => None
                 end) journal.

(** The calls a journal makes to the kernel, the output area or the
    widget manager (everything but the console). *)
Definition is_call (e : Effect) : bool := negb (is_console e).

(** A task other than the continuation of start-up. *)
Definition before_context (e : App.Event) : bool :=
  match e with
  | App.ContextReady _ _ => false
  | _ => true
  end.

(** The React state [kernel] is the connection started last; the Run
    button is rendered only once kernel and widget manager exist; an
    output area exists only once the button is rendered; every future
    has its completion reactions attached and carries non-empty code for
    a live kernel; a kernel has the widget target registered exactly when
    its start-up continuation has run. *)
Record coherent (w : World) : Prop := {
  co_kernel :
    match kernel w with
    | Some k => S k = length (kernels w)
    | None => kernels w = []
    end;
  co_started :
    kernelStarted w = true → is_Some (kernel w) ∧ is_Some (managerRef w);
  co_outputArea : is_Some (outputArea w) → kernelStarted w = true;
  co_futures : ∀ f fu, futures w !! f = Some fu →
    done_watched fu = true ∧ fut_code fu ≠ "" ∧
    (fut_kernel fu < length (kernels w))%nat;
  co_targets : ∀ k kn, kernels w !! k = Some kn →
    targets kn = if awaiting_context kn then [] else [WIDGET_TARGET]
}.

(** ** Notions of the page *)

(** The world after [outputArea.future = future] has taken future [f]
    over for area [a], which was bound to another future or to none. *)
Definition taken_over (a : AreaRef) (f : FutureRef) (w : World) : World :=
  let w1 :=
    match future_of a w with
    | Some g => with_futures (alter Page.drop_closure g (futures w)) w
    | None => w
    end in
  let w2 := with_areas (alter (Page.take_over f) a (areas w1)) w1 in
  with_futures (alter Page.drop_closure f (futures w2)) w2.

(** The world after [outputArea.future = future] on the page. *)
Definition assigned (a : AreaRef) (f : FutureRef) (w : World) : World :=
  match areas w !! a with
  | Some area => if bool_decide (future area = Some f) then w else taken_over a f w
  | None => w
  end.

(** The world after the handler of area [a] has received [msg]. *)
Definition rendered (a : AreaRef) (msg : IOPubMessage) (w : World) : World :=
  with_areas (alter (render msg) a (areas w)) w.

(** A task other than a kernel message of an execution. *)
Definition not_iopub (e : App.Event) : bool :=
  match e with
  | App.IOPub _ _ => false
  | _ => true
  end.


(** A session whose output area shows the output of execution [0]: the
    first message bound the area, the second was added to the model. *)
Definition rendering_world : World :=
  world (Page.run [App.ClickRun; App.IOPub 0 stream_msg; App.IOPub 0 stream_msg]
           (ready_world "1+1")).

(** The same session after the Run button was clicked again: execution
    [1] is submitted, no message of it has arrived. *)
Definition resubmitted_world : World :=
  world (App.executeCode rendering_world).

(** On the page a closure, while installed, captures its own future and
    a live output area; an area is bound only to a future whose closure
    has been replaced, and no two areas are bound to the same future. *)
Record page_wf (w : World) : Prop := {
  pw_outputArea : ∀ o, outputArea w = Some o → (o < length (areas w))%nat;
  pw_closure : ∀ f fu cl, futures w !! f = Some fu → onIOPub fu = Some cl →
    cl_future cl = f ∧ (cl_outputArea cl < length (areas w))%nat;
  pw_bound : ∀ a g, future_of a w = Some g →
    ∃ fu, futures w !! g = Some fu ∧ onIOPub fu = None;
  pw_single : ∀ a b g, future_of a w = Some g → future_of b w = Some g → a = b
}.

(** ** Unfolding the monad *)

Ltac js_unfold :=
  unfold model_clear, set_future, requestExecute, set_onIOPub,
    done_then_catch, set_state, new_manager, new_outputArea,
    registerCommTarget, set_onMsg, set_onClose, comm_send, comm_close in *;
  unfold mbind, Js_bind, mret, Js_ret, emit, read, update, console_log,
    console_error, value, world, effects in *.

Ltac js := js_unfold; cbn in *.

(** * Properties *)

(** ** [executeCode]: the two branches *)

Section ExecuteCode.

Implicit Types (w : World) (k : KernelRef) (o : AreaRef) (c : string).

Lemma executeCode_skips w :
  kernel w = None ∨ outputArea w = None ∨ code_truthy (current_code w) = false →
  App.executeCode w = (tt, w, skip_journal w).
Proof.
  intros H. unfold App.executeCode, skip_journal, guard. js.
  destruct (kernel w) as [k|], (outputArea w) as [o|], (current_code w) as [c|];
    cbn in *; try reflexivity.
  destruct H as [?|[?|H]]; try discriminate. by rewrite H.
Qed.

Lemma executeCode_submits w k o c :
  kernel w = Some k → outputArea w = Some o → current_code w = Some c → c ≠ "" →
  App.executeCode w =
    (tt, submitted k o c w,
     [ConsoleLog "Executing code:" [AString c]; ModelClear o;
      RequestExecute k c (length (futures w))]).
Proof.
  intros Hk Ho Hc Hne. unfold App.executeCode, submitted, guard. js.
  rewrite Hk, Ho, Hc. cbn.
  apply String.eqb_neq in Hne. by rewrite Hne.
Qed.

Example executeCode_no_kernel :
  effects (App.executeCode initial) =
    [ConsoleLog "Executing code:" [AUndefined];
     ConsoleError "Kernel not initialized." [];
     ConsoleError "Output area not initialized." []].
Proof. reflexivity. Qed.

(** C1: when the kernel or the output area is absent, [executeCode] makes
    no [requestExecute] call, reports the diagnostic of each absent
    precondition, clears no model and leaves the whole world (so every
    output model) as it was. *)
Theorem executeCode_absent_precondition w :
  kernel w = None ∨ outputArea w = None →
  count is_request (effects (App.executeCode w)) = 0 ∧
  (kernel w = None →
     ConsoleError "Kernel not initialized." [] ∈ effects (App.executeCode w)) ∧
  (outputArea w = None →
     ConsoleError "Output area not initialized." [] ∈ effects (App.executeCode w)) ∧
  count is_model_clear (effects (App.executeCode w)) = 0 ∧
  world (App.executeCode w) = w.
Proof.
  intros H. rewrite executeCode_skips by tauto.
  unfold skip_journal, effects, world. cbn.
  repeat split.
  - destruct (kernel w), (outputArea w); reflexivity.
  - intros ->. cbn. rewrite !elem_of_cons. auto.
  - intros ->. destruct (kernel w); cbn; rewrite !elem_of_cons; auto.
  - destruct (kernel w), (outputArea w); reflexivity.
Qed.

Lemma executeCode_absent_precondition_witness :
  let w := world (App.run [App.KernelStarts "python3"] initial) in
  (kernel w = None ∨ outputArea w = None) ∧
  count is_request (effects (App.executeCode w)) = 0 ∧
  (kernel w = None →
     ConsoleError "Kernel not initialized." [] ∈ effects (App.executeCode w)) ∧
  (outputArea w = None →
     ConsoleError "Output area not initialized." [] ∈ effects (App.executeCode w)) ∧
  count is_model_clear (effects (App.executeCode w)) = 0 ∧
  world (App.executeCode w) = w.
Proof.
  split; [right; reflexivity|].
  apply (executeCode_absent_precondition
           (world (App.run [App.KernelStarts "python3"] initial))).
  right; reflexivity.
Defined.

(** C9, as stated, fails: with kernel and output area present and an empty
    editor, [executeCode] still writes its trace line to the console. *)
Lemma executeCode_empty_code_not_silent :
  kernel (ready_world "") = Some 0 ∧
  outputArea (ready_world "") = Some 0 ∧
  current_code (ready_world "") = Some "" ∧
  effects (App.executeCode (ready_world "")) =
    [ConsoleLog "Executing code:" [AString ""]] ∧
  count is_console (effects (App.executeCode (ready_world ""))) ≠ 0.
Proof. repeat split; try reflexivity. vm_compute. discriminate. Qed.

(** C9, amended: with kernel and output area present and no code (editor
    not mounted, or empty text), [executeCode] submits nothing, clears no
    model, reports no error and changes nothing; its only call is the
    unconditional ["Executing code:"] console line. *)
Theorem executeCode_without_code w k o :
  kernel w = Some k → outputArea w = Some o →
  current_code w = None ∨ current_code w = Some "" →
  effects (App.executeCode w) =
    [ConsoleLog "Executing code:" [arg_of_code (current_code w)]] ∧
  count is_request (effects (App.executeCode w)) = 0 ∧
  count is_model_clear (effects (App.executeCode w)) = 0 ∧
  count is_console_error (effects (App.executeCode w)) = 0 ∧
  world (App.executeCode w) = w.
Proof.
  intros Hk Ho Hc. rewrite executeCode_skips.
  - unfold skip_journal, effects, world. cbn. by rewrite Hk, Ho.
  - right; right. by destruct Hc as [-> | ->].
Qed.

Lemma executeCode_without_code_witness :
  kernel (ready_world "") = Some 0 ∧
  outputArea (ready_world "") = Some 0 ∧
  (current_code (ready_world "") = None ∨ current_code (ready_world "") = Some "") ∧
  effects (App.executeCode (ready_world "")) =
    [ConsoleLog "Executing code:" [arg_of_code (current_code (ready_world ""))]] ∧
  count is_request (effects (App.executeCode (ready_world ""))) = 0 ∧
  count is_model_clear (effects (App.executeCode (ready_world ""))) = 0 ∧
  count is_console_error (effects (App.executeCode (ready_world ""))) = 0 ∧
  world (App.executeCode (ready_world "")) = ready_world "".
Proof.
  split; [reflexivity|]. split; [reflexivity|]. split; [right; reflexivity|].
  apply (executeCode_without_code (ready_world "") 0 0);
    [reflexivity | reflexivity | right; reflexivity].
Defined.

End ExecuteCode.

(** ** The per-message handler: its three cases *)

Section Handler.

Implicit Types (w : World) (a : AreaRef) (f : FutureRef) (msg : IOPubMessage).

Lemma handle_iopub_plain a f msg w :
  App.widget_state msg = None →
  App.handle_iopub a f msg w =
    (tt, bound a f w,
     [SetFuture a f; ConsoleLog "Message received:" [AMessage msg]]).
Proof. intros H. unfold App.handle_iopub. rewrite H. reflexivity. Qed.

Lemma handle_iopub_no_manager a f msg w :
  managerRef w = None →
  App.handle_iopub a f msg w =
    (tt, bound a f w,
     [SetFuture a f; ConsoleLog "Message received:" [AMessage msg]]).
Proof.
  intros H. unfold App.handle_iopub.
  destruct (App.widget_state msg); js; [rewrite H|]; reflexivity.
Qed.

Lemma handle_iopub_widget a f msg w widgetState m :
  App.widget_state msg = Some widgetState → managerRef w = Some m →
  App.handle_iopub a f msg w =
    (tt, hydrating widgetState (bound a f w),
     [SetFuture a f; SetState m widgetState (length (promises w));
      ConsoleLog "Message received:" [AMessage msg]]).
Proof.
  intros H Hm. unfold App.handle_iopub. rewrite H. js. rewrite Hm. reflexivity.
Qed.




End Handler.

(** ** Dispatch equations *)

Section Dispatch.

Implicit Types (w : World) (f : FutureRef) (msg : IOPubMessage).

Lemma deliver_iopub_eq f msg w :
  App.deliver_iopub f msg w =
    match futures w !! f ≫= onIOPub with
    | Some cl => App.handle_iopub (cl_outputArea cl) (cl_future cl) msg w
    | None => (tt, w, [])
    end.
Proof.
  unfold App.deliver_iopub. js.
  destruct (futures w !! f) as [fu|]; cbn; [|done].
  destruct (onIOPub fu) as [cl|]; [|done].
  by destruct (App.handle_iopub _ _ _ _) as [[[] ?] ?].
Qed.


Lemma run_cons e events w :
  App.run (e :: events) w =
    (tt, world (App.run events (world (App.step e w))),
     effects (App.step e w) ++ effects (App.run events (world (App.step e w)))).
Proof.
  cbn. js.
  destruct (App.step e w) as [[[] w1] j1]. cbn.
  by destruct (App.run events w1) as [[[] w2] j2].
Qed.

Lemma run_app events1 events2 w :
  App.run (events1 ++ events2) w =
    (tt, world (App.run events2 (world (App.run events1 w))),
     effects (App.run events1 w) ++
     effects (App.run events2 (world (App.run events1 w)))).
Proof.
  revert w. induction events1 as [|e events1 IH]; intros w.
  - cbn. by destruct (App.run events2 w) as [[[] w2] j2].
  - rewrite <- app_comm_cons, !run_cons, IH. cbn. by rewrite app_assoc.
Qed.

End Dispatch.

(** ** Well-formedness is an invariant of the event loop *)

Section Invariant.

Implicit Types (w : World).

Ltac wf_frame Hwf :=
  let H1 := fresh "Harea" in let H2 := fresh "Hfut" in
  let H3 := fresh "Hmgr" in let H4 := fresh "Htgt" in
  destruct Hwf as [H1 H2 H3 H4]; split; cbn in *; eauto.

Lemma wf_initial : wf initial.
Proof. by split. Qed.

Lemma wf_bound a f w : wf w → wf (bound a f w).
Proof.
  intros Hwf. wf_frame Hwf.
  - intros o Ho. rewrite length_alter. eauto.
  - intros g fu Hg. rewrite length_alter. eauto.
Qed.

Lemma wf_hydrating widgetState w : wf w → wf (hydrating widgetState w).
Proof. intros Hwf. wf_frame Hwf. Qed.

Lemma wf_submitted k o c w :
  wf w → outputArea w = Some o → wf (submitted k o c w).
Proof.
  intros Hwf Ho. wf_frame Hwf.
  - intros o' Ho'. rewrite length_alter. eauto.
  - intros g fu Hg. rewrite length_alter.
    rewrite list_alter_alter_eq in Hg.
    destruct (decide (length (futures w) = g)) as [<-|Hne].
    + rewrite list_lookup_alter_eq, lookup_app_r, Nat.sub_diag in Hg by lia.
      cbn in Hg. injection Hg as <-. cbn. eauto.
    + rewrite list_lookup_alter_ne in Hg by done.
      apply lookup_snoc_Some in Hg as [[_ Hg]|[? _]]; [eauto|congruence].
  - intros Hm. destruct (Hmgr Hm) as (Ho' & _). congruence.
Qed.

Lemma wf_handle_iopub a f msg w :
  wf w → wf (world (App.handle_iopub a f msg w)).
Proof.
  intros Hwf.
  destruct (App.widget_state msg) as [ws|] eqn:Hws;
    [destruct (managerRef w) as [m|] eqn:Hm|].
  - erewrite handle_iopub_widget by done. by apply wf_hydrating, wf_bound.
  - rewrite handle_iopub_no_manager by done. by apply wf_bound.
  - rewrite handle_iopub_plain by done. by apply wf_bound.
Qed.

Lemma wf_executeCode w : wf w → wf (world (App.executeCode w)).
Proof.
  intros Hwf.
  destruct (kernel w) as [k|] eqn:Hk; [|by rewrite executeCode_skips by auto].
  destruct (outputArea w) as [o|] eqn:Ho; [|by rewrite executeCode_skips by auto].
  destruct (current_code w) as [c|] eqn:Hc;
    [|by rewrite executeCode_skips by (rewrite Hc; auto)].
  destruct (decide (c = "")) as [->|Hne];
    [by rewrite executeCode_skips by (rewrite Hc; auto)|].
  erewrite executeCode_submits by done. by apply wf_submitted.
Qed.

Lemma targets_registered k (kns : list Kernel) k0 kn0 :
  (∀ k kn, kns !! k = Some kn → targets kn ⊆ [WIDGET_TARGET]) →
  alter (add_target WIDGET_TARGET) k (alter App.resume k kns) !! k0 = Some kn0 →
  targets kn0 ⊆ [WIDGET_TARGET].
Proof.
  intros Hall. rewrite list_alter_alter_eq, list_lookup_alter.
  case_decide as Hk; [|by eauto].
  subst k0. destruct (kns !! k) as [kn|] eqn:Hkn; [|done].
  intros [= <-]. cbn. intros x [->|Hx]%elem_of_cons.
  - apply list_elem_of_here.
  - apply list_elem_of_filter in Hx as [_ Hx]. by apply (Hall _ _ Hkn).
Qed.

Lemma wf_step e w : wf w → wf (world (App.step e w)).
Proof.
  intros Hwf. destruct e; unfold App.step.
  - unfold App.kernel_started. js. wf_frame Hwf.
    + intros Hm. destruct (Hmgr Hm) as (? & ? & Hk). repeat split; try done.
      intros k kn [[_ Hin]|[_ <-]]%lookup_snoc_Some; eauto.
    + intros k kn [[_ Hin]|[_ <-]]%lookup_snoc_Some; eauto.
      cbn. apply list_subseteq_nil.
  - js. destruct (kernels w !! k) as [kn|] eqn:Hk; [|done].
    destruct (awaiting_context kn); [|done].
    unfold App.context_ready. js. destruct outputRef_current; js.
    all: wf_frame Hwf; try done; eauto using targets_registered.
    + intros o [= <-]. rewrite length_app. cbn. lia.
    + intros f fu Hf. destruct (Hfut _ _ Hf) as (a & ? & ?).
      exists a. rewrite length_app. split; [done|lia].
  - done.
  - cbn. wf_frame Hwf.
  - js. destruct (editorRef w); cbn; [|done]. wf_frame Hwf.
  - js. destruct (kernelStarted w); [|done].
    pose proof (wf_executeCode w Hwf) as H.
    by destruct (App.executeCode w) as [[[] ?] ?].
  - rewrite deliver_iopub_eq. destruct (futures w !! f ≫= onIOPub); [|done].
    by apply wf_handle_iopub.
  - unfold App.settle_done. js. destruct (futures w !! f) as [fu|]; [|done].
    destruct (done_watched fu); [|done]. by destruct err.
  - unfold App.settle_set_state. js. destruct (promises w !! p) as [pr|]; [|done].
    destruct (pr_settled pr); [done|]. js. destruct err; cbn; wf_frame Hwf.
  - unfold App.deliver_comm_open. js. destruct (kernels w !! k) as [kn|]; [|done].
    case_bool_decide; [|done]. js. unfold App.on_comm_open. js.
    destruct (managerRef w) eqn:Hm; cbn; wf_frame Hwf.
  - unfold App.deliver_comm_msg. js. destruct (comms w !! c) as [comm|]; [|done].
    cbn. by destruct (onMsg comm).
  - unfold App.deliver_comm_close. js. destruct (comms w !! c) as [comm|]; [|done].
    cbn. by destruct (onClose comm).
  - js. destruct (comms w !! c) as [comm|]; [|done].
    destruct call; cbn;
      unfold App.on_msg, App.on_close, App.send, App.close, App.open; js;
      wf_frame Hwf.
Qed.

End Invariant.

(** ** What one task can do to the futures and to the output areas *)

Section Frame.

Implicit Types (w : World) (e : App.Event).

Lemma wf_run events w : wf w → wf (world (App.run events w)).
Proof.
  revert w. induction events as [|e events IH]; intros w Hwf; [done|].
  rewrite run_cons. cbn. by apply IH, wf_step.
Qed.

Lemma reachable_wf w : reachable w → wf w.
Proof. intros [events ->]. apply wf_run, wf_initial. Qed.

Lemma executeCode_cases w :
  ((kernel w = None ∨ outputArea w = None ∨
    code_truthy (current_code w) = false) ∧
   App.executeCode w = (tt, w, skip_journal w)) ∨
  ∃ k o c, kernel w = Some k ∧ outputArea w = Some o ∧
    current_code w = Some c ∧ c ≠ "" ∧
    App.executeCode w =
      (tt, submitted k o c w,
       [ConsoleLog "Executing code:" [AString c]; ModelClear o;
        RequestExecute k c (length (futures w))]).
Proof.
  destruct (kernel w) as [k|] eqn:Hk;
    [|left; split; [auto|by rewrite executeCode_skips by auto]].
  destruct (outputArea w) as [o|] eqn:Ho;
    [|left; split; [auto|by rewrite executeCode_skips by auto]].
  destruct (current_code w) as [c|] eqn:Hc;
    [|left; split; [auto|by rewrite executeCode_skips by (rewrite Hc; auto)]].
  destruct (decide (c = "")) as [->|Hne];
    [left; split; [auto|by rewrite executeCode_skips by (rewrite Hc; auto)]|].
  right. exists k, o, c. repeat split; try done. by apply executeCode_submits.
Qed.

Lemma handle_iopub_cases a f msg w :
  ((App.widget_state msg = None ∨ managerRef w = None) ∧
   App.handle_iopub a f msg w =
     (tt, bound a f w,
      [SetFuture a f; ConsoleLog "Message received:" [AMessage msg]])) ∨
  ∃ widgetState m, App.widget_state msg = Some widgetState ∧
    managerRef w = Some m ∧
    App.handle_iopub a f msg w =
      (tt, hydrating widgetState (bound a f w),
       [SetFuture a f; SetState m widgetState (length (promises w));
        ConsoleLog "Message received:" [AMessage msg]]).
Proof.
  destruct (App.widget_state msg) as [ws|] eqn:Hws;
    [destruct (managerRef w) as [m|] eqn:Hm|].
  - right. exists ws, m. repeat split; try done. by apply handle_iopub_widget.
  - left. split; [auto|]. by apply handle_iopub_no_manager.
  - left. split; [auto|]. by apply handle_iopub_plain.
Qed.

(** A task leaves the futures alone or is a submission. *)
Lemma step_futures e w :
  futures (world (App.step e w)) = futures w ∨
  ∃ k o c, e = App.ClickRun ∧ outputArea w = Some o ∧
    world (App.step e w) = submitted k o c w.
Proof.
  destruct e; unfold App.step.
  - by left.
  - left. js. destruct (kernels w !! k) as [kn|]; [|done].
    destruct (awaiting_context kn); [|done].
    unfold App.context_ready. js. by destruct outputRef_current.
  - by left.
  - by left.
  - left. js. by destruct (editorRef w).
  - js. destruct (kernelStarted w); [|by left].
    destruct (executeCode_cases w) as [[_ ->]|(k & o & c & ? & ? & ? & ? & ->)].
    + by left.
    + right. by exists k, o, c.
  - left. rewrite deliver_iopub_eq. destruct (futures w !! f ≫= onIOPub) as [cl|]; [|done].
    by destruct (handle_iopub_cases (cl_outputArea cl) (cl_future cl) msg w)
      as [[_ ->]|(? & ? & ? & ? & ->)].
  - left. unfold App.settle_done. js. destruct (futures w !! f) as [fu|]; [|done].
    destruct (done_watched fu); [|done]. by destruct err.
  - left. unfold App.settle_set_state. js.
    destruct (promises w !! p) as [pr|]; [|done].
    destruct (pr_settled pr); [done|]. js. by destruct err.
  - left. unfold App.deliver_comm_open. js.
    destruct (kernels w !! k) as [kn|]; [|done].
    case_bool_decide; [|done]. js. unfold App.on_comm_open. js.
    by destruct (managerRef w).
  - left. unfold App.deliver_comm_msg. js. destruct (comms w !! c) as [comm|]; [|done].
    cbn. by destruct (onMsg comm).
  - left. unfold App.deliver_comm_close. js.
    destruct (comms w !! c) as [comm|]; [|done].
    cbn. by destruct (onClose comm).
  - left. js. destruct (comms w !! c) as [comm|]; [|done].
    by destruct call.
Qed.

(** A task leaves the output areas alone, creates one, clears one or binds
    one to a future. *)
Lemma step_areas e w :
  areas (world (App.step e w)) = areas w ∨
  areas (world (App.step e w)) = areas w ++ [{| model := []; future := None |}] ∨
  (∃ o, areas (world (App.step e w)) = alter clear_model o (areas w)) ∨
  (∃ a f, areas (world (App.step e w)) = alter (bind_future f) a (areas w)).
Proof.
  destruct e; unfold App.step.
  - by left.
  - js. destruct (kernels w !! k) as [kn|]; [|by left].
    destruct (awaiting_context kn); [|by left].
    unfold App.context_ready. js. destruct outputRef_current; [right|]; by left.
  - by left.
  - by left.
  - left. js. by destruct (editorRef w).
  - js. destruct (kernelStarted w); [|by left].
    destruct (executeCode_cases w) as [[_ ->]|(k & o & c & ? & ? & ? & ? & ->)].
    + by left.
    + right; right; left. by exists o.
  - rewrite deliver_iopub_eq. destruct (futures w !! f ≫= onIOPub) as [cl|]; [|by left].
    right; right; right. exists (cl_outputArea cl), (cl_future cl).
    by destruct (handle_iopub_cases (cl_outputArea cl) (cl_future cl) msg w)
      as [[_ ->]|(? & ? & ? & ? & ->)].
  - left. unfold App.settle_done. js. destruct (futures w !! f) as [fu|]; [|done].
    destruct (done_watched fu); [|done]. by destruct err.
  - left. unfold App.settle_set_state. js.
    destruct (promises w !! p) as [pr|]; [|done].
    destruct (pr_settled pr); [done|]. js. by destruct err.
  - left. unfold App.deliver_comm_open. js.
    destruct (kernels w !! k) as [kn|]; [|done].
    case_bool_decide; [|done]. js. unfold App.on_comm_open. js.
    by destruct (managerRef w).
  - left. unfold App.deliver_comm_msg. js. destruct (comms w !! c) as [comm|]; [|done].
    cbn. by destruct (onMsg comm).
  - left. unfold App.deliver_comm_close. js.
    destruct (comms w !! c) as [comm|]; [|done].
    cbn. by destruct (onClose comm).
  - left. js. destruct (comms w !! c) as [comm|]; [|done].
    by destruct call.
Qed.

End Frame.

(** ** Consequences for runs *)

Section Runs.

Implicit Types (w : World) (e : App.Event) (a : AreaRef) (f : FutureRef).

Lemma step_future_stable e w f fu :
  futures w !! f = Some fu → futures (world (App.step e w)) !! f = Some fu.
Proof.
  intros Hf. destruct (step_futures e w) as [->|(k & o & c & _ & _ & ->)]; [done|].
  pose proof (lookup_lt_Some _ _ _ Hf) as Hlt. cbn.
  rewrite list_alter_alter_eq, list_lookup_alter_ne by lia.
  by rewrite lookup_app_l.
Qed.

Lemma step_model_empty e w a :
  model_of a w = Some [] → model_of a (world (App.step e w)) = Some [].
Proof.
  unfold model_of. intros Ha.
  destruct (areas w !! a) as [area|] eqn:Harea; [|done].
  pose proof (lookup_lt_Some _ _ _ Harea) as Hlt.
  destruct (step_areas e w) as [->|[->|[[o ->]|(a' & f & ->)]]].
  - by rewrite Harea.
  - rewrite lookup_app_l by done. by rewrite Harea.
  - rewrite list_lookup_alter, Harea.
    case_decide; subst; by rewrite ?Harea.
  - rewrite list_lookup_alter, Harea.
    case_decide; subst; by rewrite ?Harea.
Qed.

Lemma run_model_empty events w a :
  model_of a w = Some [] → model_of a (world (App.run events w)) = Some [].
Proof.
  revert w. induction events as [|e events IH]; intros w Ha; [done|].
  rewrite run_cons. cbn. by apply IH, step_model_empty.
Qed.

(** Only the closure of a future binds an output area to it. *)
Ltac absent := cbn; rewrite ?elem_of_cons, ?elem_of_nil; intuition discriminate.

Lemma step_set_future e w a f :
  SetFuture a f ∈ effects (App.step e w) →
  ∃ g fu, futures w !! g = Some fu ∧
    onIOPub fu = Some {| cl_outputArea := a; cl_future := f |}.
Proof.
  destruct e; unfold App.step.
  - cbn. absent.
  - js. destruct (kernels w !! k) as [kn|]; [|absent].
    destruct (awaiting_context kn); [|absent].
    unfold App.context_ready. js.
    destruct outputRef_current; cbn; absent.
  - cbn. absent.
  - cbn. absent.
  - js. destruct (editorRef w); absent.
  - js. destruct (kernelStarted w); [|absent].
    destruct (executeCode_cases w) as [[_ ->]|(k & o & c & ? & ? & ? & ? & ->)]; cbn.
    + unfold skip_journal. destruct (kernel w), (outputArea w); cbn;
        absent.
    + absent.
  - rewrite deliver_iopub_eq.
    destruct (futures w !! f0) as [fu|] eqn:Hfu; cbn; [|absent].
    destruct (onIOPub fu) as [[a' f']|] eqn:Hcl; cbn; [|absent].
    intros Hin. exists f0, fu. split; [done|]. rewrite Hcl.
    destruct (handle_iopub_cases a' f' msg w) as [[_ Heq]|(? & ? & ? & ? & Heq)];
      rewrite Heq in Hin; cbn in Hin;
      rewrite !elem_of_cons, elem_of_nil in Hin;
      (destruct Hin as [[= -> ->]|Hin]; [done|exfalso; intuition discriminate]).
  - unfold App.settle_done. js.
    destruct (futures w !! f0) as [fu|]; [|absent].
    destruct (done_watched fu); [|absent].
    destruct err; cbn; absent.
  - unfold App.settle_set_state. js.
    destruct (promises w !! p) as [pr|]; [|absent].
    destruct (pr_settled pr); [absent|]. js.
    destruct err; cbn; absent.
  - unfold App.deliver_comm_open. js.
    destruct (kernels w !! k) as [kn|]; [|absent].
    case_bool_decide; [|absent]. js. unfold App.on_comm_open. js.
    destruct (managerRef w); cbn; absent.
  - unfold App.deliver_comm_msg. js.
    destruct (comms w !! c) as [comm|]; [|absent].
    cbn. destruct (onMsg comm); cbn; absent.
  - unfold App.deliver_comm_close. js.
    destruct (comms w !! c) as [comm|]; [|absent].
    cbn. destruct (onClose comm); cbn; absent.
  - js. destruct (comms w !! c) as [comm|]; [|absent].
    destruct call; cbn;
      unfold App.on_msg, App.on_close, App.send, App.close, App.open; js; absent.
Qed.

Lemma run_set_future events w a f fu :
  wf w → futures w !! f = Some fu →
  SetFuture a f ∈ effects (App.run events w) →
  onIOPub fu = Some {| cl_outputArea := a; cl_future := f |}.
Proof.
  revert w. induction events as [|e events IH]; intros w Hwf Hf.
  - intros Hin. by apply elem_of_nil in Hin.
  - rewrite run_cons. cbn. intros [Hin|Hin]%elem_of_app.
    + apply step_set_future in Hin as (g & fu' & Hg & Hcl).
      destruct (wf_onIOPub _ Hwf _ _ Hg) as (a' & Hcl' & _).
      rewrite Hcl in Hcl'. injection Hcl' as -> ->. congruence.
    + eapply IH; [by apply wf_step | by apply step_future_stable | done].
Qed.

End Runs.

(** ** Submission: clearing, then the request *)

Section Submission.

Implicit Types (w : World) (k : KernelRef) (o a : AreaRef) (f : FutureRef).
Implicit Types (c : string) (msg : IOPubMessage).

Lemma run_future_stable events w f fu :
  futures w !! f = Some fu → futures (world (App.run events w)) !! f = Some fu.
Proof.
  revert w. induction events as [|e events IH]; intros w Hf; [done|].
  rewrite run_cons. cbn. by apply IH, step_future_stable.
Qed.

Lemma submitted_future k o c w :
  futures (submitted k o c w) !! length (futures w) =
    Some {| fut_kernel := k; fut_code := c;
            onIOPub := Some {| cl_outputArea := o; cl_future := length (futures w) |};
            done_watched := true |}.
Proof.
  cbn. rewrite list_alter_alter_eq, list_lookup_alter_eq.
  by rewrite lookup_app_r, Nat.sub_diag by lia.
Qed.

Lemma submitted_model k o c w :
  o < length (areas w) → model_of o (submitted k o c w) = Some [].
Proof.
  intros [area Harea]%lookup_lt_is_Some. unfold model_of. cbn.
  by rewrite list_lookup_alter_eq, Harea.
Qed.


Lemma ready_world_reachable c : reachable (ready_world c).
Proof.
  by exists [App.KernelStarts "python3"; App.ContextReady 0 true;
             App.EditorMounts c].
Qed.


End Submission.

(** ** Hydration gating *)

Section Hydration.

Implicit Types (w : World) (f : FutureRef) (msg : IOPubMessage).

Lemma running_world_reachable : reachable running_world.
Proof.
  exists [App.KernelStarts "python3"; App.ContextReady 0 true;
          App.EditorMounts "1+1"; App.ClickRun].
  by vm_compute.
Qed.

Example hydrates_an_object :
  effects (App.deliver_iopub 0 widget_msg running_world) =
    [SetFuture 0 0; SetState 0 (JObject [("model-A", JObject [])]) 0;
     ConsoleLog "Message received:" [AMessage widget_msg]].
Proof. by vm_compute. Qed.




End Hydration.

(** ** The channel adapter *)

Section ChannelAdapter.

Implicit Types (w : World) (c : CommRef) (comm : Comm) (view : ClassicCommView).
Implicit Types (callback : Callback) (msg : CommMessage).

Lemma comm_at_lookup c comm w : comms w !! c = Some comm → comm_at c w = comm.
Proof. unfold comm_at. by intros ->. Qed.

(** C5: on the view built for a comm, [send] forwards exactly [data],
    [metadata] and [buffers] to [comm.send], ignores [callbacks] and
    returns the comm id; [close] closes the comm and returns its id;
    [open] makes no call on the comm (it only logs) and returns its id. *)
Theorem classicComm_forwards w c comm payload callbacks metadata buffers :
  comms w !! c = Some comm →
  App.send (App.classicComm c comm) payload callbacks metadata buffers w =
    (commId comm, w, [CommSend c payload metadata buffers]) ∧
  App.close (App.classicComm c comm) w =
    (commId comm, with_comms (alter mark_closed c (comms w)) w, [CommClose c]) ∧
  App.open (App.classicComm c comm) w =
    (commId comm, w,
     [ConsoleLog "Comm channel opened" [AString (targetName comm)]]) ∧
  comm_id (App.classicComm c comm) = commId comm ∧
  target_name (App.classicComm c comm) = targetName comm.
Proof.
  intros Hc. unfold App.send, App.close, App.open. js.
  unfold comm_at. cbn. rewrite list_lookup_alter_eq, Hc. by cbn.
Qed.

Lemma classicComm_forwards_witness :
  comms comm_world !! 0 = Some c1 ∧
  App.send (App.classicComm 0 c1) (JString "hi") (Some JNull) None None comm_world =
    ("c1", comm_world, [CommSend 0 (JString "hi") None None]).
Proof.
  split; [by vm_compute|].
  apply (classicComm_forwards comm_world 0 c1 (JString "hi") (Some JNull) None None).
  by vm_compute.
Defined.

Lemma on_msg_eq view callback w :
  App.on_msg view callback w =
    (tt, with_comms (alter (assign_onMsg callback) (view_comm view) (comms w)) w, []).
Proof. reflexivity. Qed.

Lemma on_close_eq view callback w :
  App.on_close view callback w =
    (tt, with_comms (alter (assign_onClose callback) (view_comm view) (comms w)) w, []).
Proof. reflexivity. Qed.

Lemma register_all_on_msg view callbacks callback w :
  register_all (App.on_msg view) (callbacks ++ [callback]) w =
    App.on_msg view callback w.
Proof.
  revert w. induction callbacks as [|cb callbacks IH]; intros w.
  - cbn. js. by rewrite on_msg_eq.
  - cbn. js. rewrite IH, !on_msg_eq. unfold with_comms. cbn.
    rewrite list_alter_alter_eq.
    by rewrite (list_alter_ext (assign_onMsg callback ∘ assign_onMsg cb)
                  (assign_onMsg callback) (comms w) (comms w)).
Qed.

Lemma register_all_on_close view callbacks callback w :
  register_all (App.on_close view) (callbacks ++ [callback]) w =
    App.on_close view callback w.
Proof.
  revert w. induction callbacks as [|cb callbacks IH]; intros w.
  - cbn. js. by rewrite on_close_eq.
  - cbn. js. rewrite IH, !on_close_eq. unfold with_comms. cbn.
    rewrite list_alter_alter_eq.
    by rewrite (list_alter_ext (assign_onClose callback ∘ assign_onClose cb)
                  (assign_onClose callback) (comms w) (comms w)).
Qed.

(** C6: [on_msg] and [on_close] keep one callback each.  Registering any
    callbacks and then [callback] is the same as registering [callback]
    alone (and makes no call); afterwards a message arriving on the comm is
    passed, unchanged, to [callback] and to no other callback; likewise
    for close notifications. *)
Theorem last_registration_wins w c comm callbacks callback msg :
  comms w !! c = Some comm →
  register_all (App.on_msg (App.classicComm c comm)) (callbacks ++ [callback]) w =
    App.on_msg (App.classicComm c comm) callback w ∧
  effects (App.deliver_comm_msg c msg
             (world (register_all (App.on_msg (App.classicComm c comm))
                       (callbacks ++ [callback]) w))) =
    [Invoke callback msg] ∧
  register_all (App.on_close (App.classicComm c comm)) (callbacks ++ [callback]) w =
    App.on_close (App.classicComm c comm) callback w ∧
  effects (App.deliver_comm_close c msg
             (world (register_all (App.on_close (App.classicComm c comm))
                       (callbacks ++ [callback]) w))) =
    [Invoke callback msg].
Proof.
  intros Hc. rewrite register_all_on_msg, register_all_on_close.
  repeat split.
  - rewrite on_msg_eq. unfold App.deliver_comm_msg. js.
    by rewrite list_lookup_alter_eq, Hc.
  - rewrite on_close_eq. unfold App.deliver_comm_close. js.
    by rewrite list_lookup_alter_eq, Hc.
Qed.

Lemma last_registration_wins_witness :
  comms comm_world !! 0 = Some c1 ∧
  register_all (App.on_msg (App.classicComm 0 c1)) ([7] ++ [9]) comm_world =
    App.on_msg (App.classicComm 0 c1) 9 comm_world.
Proof.
  split; [by vm_compute|].
  apply (last_registration_wins comm_world 0 c1 [7] 9 open_msg).
  by vm_compute.
Defined.

End ChannelAdapter.

(** ** The comm registrar *)

Section Registrar.

Local Open Scope nat_scope.

Implicit Types (w : World) (e : App.Event) (c : CommRef) (k : KernelRef).
Implicit Types (msg : CommMessage).

Lemma views_of_app c journal1 journal2 :
  views_of c (journal1 ++ journal2) = views_of c journal1 ++ views_of c journal2.
Proof. apply omap_app. Qed.

Lemma views_of_nil c journal :
  (∀ m view msg, HandleCommOpen m view msg ∈ journal → view_comm view ≠ c) →
  views_of c journal = [].
Proof.
  induction journal as [|e journal IH]; intros Hall; [done|].
  unfold views_of in *. cbn.
  rewrite IH by (intros m view msg Hin; eapply Hall; by right).
  destruct e; try done.
  case_decide as Heq; [|done].
  by destruct (Hall m view msg (list_elem_of_here _ _)).
Qed.

Lemma views_of_count c journal :
  length (views_of c journal) ≤ count is_handle_comm_open journal.
Proof.
  induction journal as [|e journal IH]; [done|].
  unfold views_of in *. cbn.
  destruct e; cbn; try lia. case_decide; cbn; lia.
Qed.

Ltac absent := cbn; rewrite ?elem_of_cons, ?elem_of_nil; intuition discriminate.
Ltac quiet :=
  unfold App.kernel_started, App.start_failed, App.handleEditorDidMount,
    App.done_then, App.done_catch, App.set_state_then, App.set_state_catch,
    App.onMsg_closure, App.onClose_closure;
  js; split; [done|split; [cbn; lia|intros ???; absent]].

(** Comms are never removed from the heap; a task hands over at most one
    view, and only for the comm it has just created. *)
Lemma step_comms e w :
  length (comms w) ≤ length (comms (world (App.step e w))) ∧
  count is_handle_comm_open (effects (App.step e w)) ≤ 1 ∧
  ∀ m view msg, HandleCommOpen m view msg ∈ effects (App.step e w) →
    view_comm view = length (comms w) ∧
    length (comms (world (App.step e w))) = S (length (comms w)).
Proof.
  destruct e; unfold App.step.
  - quiet.
  - js. destruct (kernels w !! k) as [kn|]; [|quiet].
    destruct (awaiting_context kn); [|quiet].
    unfold App.context_ready. js.
    destruct outputRef_current; quiet.
  - quiet.
  - quiet.
  - js. destruct (editorRef w); quiet.
  - js. destruct (kernelStarted w); [|quiet].
    destruct (executeCode_cases w) as [[_ ->]|(k & o & c & ? & ? & ? & ? & ->)].
    + unfold skip_journal. destruct (kernel w), (outputArea w); quiet.
    + quiet.
  - rewrite deliver_iopub_eq.
    destruct (futures w !! f ≫= onIOPub) as [cl|]; [|quiet].
    destruct (handle_iopub_cases (cl_outputArea cl) (cl_future cl) msg w)
      as [[_ ->]|(? & ? & ? & ? & ->)]; quiet.
  - unfold App.settle_done. js.
    destruct (futures w !! f) as [fu|]; [|quiet].
    destruct (done_watched fu); [|quiet].
    destruct err; quiet.
  - unfold App.settle_set_state. js.
    destruct (promises w !! p) as [pr|]; [|quiet].
    destruct (pr_settled pr); [quiet|]. js.
    destruct err; quiet.
  - unfold App.deliver_comm_open. js.
    destruct (kernels w !! k) as [kn|]; [|quiet].
    case_bool_decide; [|quiet]. js.
    unfold App.on_comm_open. js.
    destruct (managerRef w); cbn; rewrite length_app; cbn;
      (split; [lia|split; [lia|]]); intros m' view msg'; [|absent].
    rewrite list_elem_of_singleton. intros [= -> -> ->]. cbn. lia.
  - unfold App.deliver_comm_msg. js.
    destruct (comms w !! c) as [comm|]; [|quiet].
    cbn. destruct (onMsg comm); quiet.
  - unfold App.deliver_comm_close. js.
    destruct (comms w !! c) as [comm|]; [|quiet].
    cbn. destruct (onClose comm); quiet.
  - js. destruct (comms w !! c) as [comm|]; [|quiet].
    destruct call; cbn;
      unfold App.on_msg, App.on_close, App.send, App.close, App.open; js;
      rewrite ?length_alter; quiet.
Qed.

Lemma run_views_fresh events w c :
  c < length (comms w) → views_of c (effects (App.run events w)) = [].
Proof.
  revert w. induction events as [|e events IH]; intros w Hlt; [done|].
  rewrite run_cons. cbn [effects world fst snd]. rewrite views_of_app.
  destruct (step_comms e w) as (Hle & _ & Hfresh).
  rewrite IH by lia. rewrite app_nil_r.
  apply views_of_nil. intros m view msg Hin.
  destruct (Hfresh _ _ _ Hin) as [-> _]. lia.
Qed.

(** A view is handed over at most once per comm, in every run. *)
Lemma run_views_once events w c :
  length (views_of c (effects (App.run events w))) ≤ 1.
Proof.
  revert w. induction events as [|e events IH]; intros w; [cbn; lia|].
  rewrite run_cons. cbn [effects world fst snd]. rewrite views_of_app, length_app.
  destruct (step_comms e w) as (Hmono & Hone & Hfresh).
  destruct (decide (c < length (comms (world (App.step e w))))) as [Hlt|Hge].
  - rewrite (run_views_fresh events _ c Hlt). cbn.
    pose proof (views_of_count c (effects (App.step e w))). lia.
  - rewrite (views_of_nil c (effects (App.step e w))); [apply IH|].
    intros m view msg Hin. destruct (Hfresh _ _ _ Hin) as [-> ?]. lia.
Qed.

(** C8: when the kernel delivers a comm-open message for the widget
    target, the registered callback builds one view for the new comm,
    carrying its id and target name, and calls [handle_comm_open] exactly
    once, with that view and the open message; no later task hands over
    another view for that comm, and no run hands over two views for one
    comm. *)
Theorem comm_open_hands_one_view w k kn msg events c :
  reachable w →
  kernels w !! k = Some kn → WIDGET_TARGET ∈ targets kn →
  cm_target_name msg = WIDGET_TARGET →
  let view := {| comm_id := cm_comm_id msg; target_name := WIDGET_TARGET;
                 view_comm := length (comms w) |} in
  let w1 := world (App.deliver_comm_open k msg w) in
  (∃ m, managerRef w = Some m ∧
     effects (App.deliver_comm_open k msg w) = [HandleCommOpen m view msg]) ∧
  count is_handle_comm_open (effects (App.deliver_comm_open k msg w)) = 1 ∧
  views_of (length (comms w))
    (effects (App.deliver_comm_open k msg w) ++ effects (App.run events w1)) =
    [view] ∧
  length (views_of c (effects (App.run events initial))) ≤ 1.
Proof.
  intros Hw%reachable_wf Hk Hin Htarget. cbn zeta.
  destruct (managerRef w) as [m|] eqn:Hm; cycle 1.
  { destruct (wf_manager _ Hw Hm) as (_ & _ & Hnone).
    rewrite (Hnone _ _ Hk) in Hin. by apply elem_of_nil in Hin. }
  assert (App.deliver_comm_open k msg w =
            (tt,
             with_comms (comms w ++ [{| commId := cm_comm_id msg;
                                        targetName := cm_target_name msg;
                                        onMsg := None; onClose := None;
                                        isClosed := false |}]) w,
             [HandleCommOpen m
                {| comm_id := cm_comm_id msg; target_name := WIDGET_TARGET;
                   view_comm := length (comms w) |} msg])) as Heq.
  { unfold App.deliver_comm_open. js. rewrite Hk. cbn.
    rewrite bool_decide_eq_true_2 by (by rewrite Htarget).
    unfold App.on_comm_open. js. rewrite Hm. cbn.
    unfold comm_at. cbn.
    rewrite lookup_app_r, Nat.sub_diag by lia. cbn. by rewrite Htarget. }
  rewrite Heq. cbn [effects world fst snd].
  split; [by exists m|]. split; [done|]. split; [|apply run_views_once].
  rewrite views_of_app, run_views_fresh by (cbn; rewrite length_app; cbn; lia).
  unfold views_of. cbn. by rewrite decide_True.
Qed.

Lemma comm_open_hands_one_view_witness :
  reachable (ready_world "") ∧
  kernels (ready_world "") !! 0 =
    Some {| kernel_name := "python3"; targets := [WIDGET_TARGET];
            awaiting_context := false |} ∧
  count is_handle_comm_open
    (effects (App.deliver_comm_open 0 open_msg (ready_world ""))) = 1.
Proof.
  split; [apply ready_world_reachable|]. split; [by vm_compute|].
  apply (comm_open_hands_one_view (ready_world "") 0
           {| kernel_name := "python3"; targets := [WIDGET_TARGET];
              awaiting_context := false |} open_msg [] 0
           (ready_world_reachable "")).
  - by vm_compute.
  - apply list_elem_of_here.
  - by vm_compute.
Defined.

End Registrar.

(** ** A failed hydration does not disturb later processing *)

Section HydrationFailure.

Local Open Scope nat_scope.

Implicit Types (w : World) (e : App.Event) (p : PromiseRef).

Lemma settle_set_state_pending p pr err w :
  promises w !! p = Some pr → pr_settled pr = false →
  App.settle_set_state p err w =
    (tt, settled_at p w,
     [match err with
      | None => ConsoleLog "Widget state has been applied successfully:"
                  [AValue (pr_widgetState pr)]
      | Some e => ConsoleError "Failed to apply widget state:" [AError e]
      end]).
Proof.
  intros Hp Hpending. unfold App.settle_set_state. js.
  rewrite Hp, Hpending. by destruct err.
Qed.

Ltac same :=
  unfold App.kernel_started, App.start_failed, App.handleEditorDidMount,
    App.done_then, App.done_catch, App.set_state_then, App.set_state_catch,
    App.onMsg_closure, App.onClose_closure;
  js; split; [reflexivity|lia].

(** Every task other than the settlement of [p] runs the same whether or
    not [p] has been settled. *)
Lemma step_settled_at e p w :
  other_than_settle p e = true → p < length (promises w) →
  App.step e (settled_at p w) =
    (tt, settled_at p (world (App.step e w)), effects (App.step e w)) ∧
  length (promises w) ≤ length (promises (world (App.step e w))).
Proof.
  intros He Hp. destruct e; unfold App.step.
  - same.
  - js. destruct (kernels w !! k) as [kn|]; [|same].
    destruct (awaiting_context kn); [|same].
    unfold App.context_ready. js. destruct outputRef_current; same.
  - same.
  - same.
  - js. destruct (editorRef w); same.
  - js. destruct (kernelStarted w); [|same].
    destruct (executeCode_cases w) as [[Hskip Heq]|(k & o & c & Hk & Ho & Hc & Hne & Heq)].
    + rewrite Heq, executeCode_skips by done. same.
    + rewrite Heq, (executeCode_submits _ k o c) by done. same.
  - rewrite !deliver_iopub_eq. cbn.
    destruct (futures w !! f ≫= onIOPub) as [cl|]; [|same].
    destruct (handle_iopub_cases (cl_outputArea cl) (cl_future cl) msg w)
      as [[[Hws|Hm] Heq]|(ws & m & Hws & Hm & Heq)]; rewrite Heq.
    + rewrite handle_iopub_plain by done. same.
    + rewrite handle_iopub_no_manager by done. same.
    + rewrite (handle_iopub_widget _ _ _ _ ws m) by done.
      cbn. unfold settled_at, hydrating, bound. cbn.
      rewrite length_alter, length_app, alter_app_l by done.
      split; [reflexivity|lia].
  - unfold App.settle_done. js.
    destruct (futures w !! f) as [fu|]; [|same].
    destruct (done_watched fu); [|same]. destruct err; same.
  - cbn in He. apply negb_true_iff, Nat.eqb_neq in He.
    unfold App.settle_set_state. js.
    rewrite list_lookup_alter_ne by done.
    destruct (promises w !! p0) as [pr|]; [|same].
    destruct (pr_settled pr); [same|].
    destruct err; unfold App.set_state_then, App.set_state_catch; js;
      unfold settled_at; cbn;
      rewrite length_alter, list_alter_alter_ne by done;
      (split; [reflexivity|lia]).
  - unfold App.deliver_comm_open. js.
    destruct (kernels w !! k) as [kn|]; [|same].
    case_bool_decide; [|same]. js.
    unfold App.on_comm_open. js. destruct (managerRef w); same.
  - unfold App.deliver_comm_msg. js.
    destruct (comms w !! c) as [comm|]; [|same].
    cbn. destruct (onMsg comm); same.
  - unfold App.deliver_comm_close. js.
    destruct (comms w !! c) as [comm|]; [|same].
    cbn. destruct (onClose comm); same.
  - js. destruct (comms w !! c) as [comm|]; [|same].
    destruct call; cbn;
      unfold App.on_msg, App.on_close, App.send, App.close, App.open; same.
Qed.

Lemma run_settled_at events p w :
  forallb (other_than_settle p) events = true → p < length (promises w) →
  App.run events (settled_at p w) =
    (tt, settled_at p (world (App.run events w)), effects (App.run events w)).
Proof.
  revert w. induction events as [|e events IH]; intros w Hall Hp; [done|].
  cbn in Hall. apply andb_true_iff in Hall as [He Hall].
  destruct (step_settled_at e p w He Hp) as [Heq Hlen].
  rewrite !run_cons, Heq. cbn [effects world fst snd].
  by rewrite IH by (done || lia).
Qed.

(** C7: when the promise of a [set_state] call rejects, the rejection is
    caught by the [.catch] reaction, which reports it with [console.error]
    and does nothing else: the world is the one a fulfilled promise leaves,
    futures and their [onIOPub] closures are untouched, and every later
    sequence of tasks (messages of the same or of later executions
    included) makes the same calls and reaches the same world as it would
    have without the rejection. *)
Theorem hydration_failure_contained w p pr err events :
  promises w !! p = Some pr → pr_settled pr = false →
  forallb (other_than_settle p) events = true →
  effects (App.settle_set_state p (Some err) w) =
    [ConsoleError "Failed to apply widget state:" [AError err]] ∧
  world (App.settle_set_state p (Some err) w) = settled_at p w ∧
  world (App.settle_set_state p (Some err) w) =
    world (App.settle_set_state p None w) ∧
  futures (world (App.settle_set_state p (Some err) w)) = futures w ∧
  effects (App.run events (world (App.settle_set_state p (Some err) w))) =
    effects (App.run events w) ∧
  world (App.run events (world (App.settle_set_state p (Some err) w))) =
    settled_at p (world (App.run events w)).
Proof.
  intros Hp Hpending Hevents.
  rewrite !(settle_set_state_pending p pr _ w Hp Hpending).
  cbn [effects world fst snd].
  pose proof (lookup_lt_Some _ _ _ Hp) as Hlt.
  rewrite (run_settled_at events p w Hevents Hlt).
  by repeat split.
Qed.

Lemma hydration_failure_contained_witness :
  promises hydrating_world !! 0 =
    Some {| pr_widgetState := JObject [("model-A", JObject [])];
            pr_settled := false |} ∧
  effects (App.settle_set_state 0 (Some (JString "bad state")) hydrating_world) =
    [ConsoleError "Failed to apply widget state:" [AError (JString "bad state")]].
Proof.
  split; [by vm_compute|].
  apply (hydration_failure_contained hydrating_world 0
           {| pr_widgetState := JObject [("model-A", JObject [])];
              pr_settled := false |}
           (JString "bad state") [App.IOPub 0 stream_msg; App.IOPub 0 widget_msg]).
  - by vm_compute.
  - reflexivity.
  - reflexivity.
Defined.

Example later_messages_after_failure :
  effects (App.run [App.IOPub 0 stream_msg]
             (world (App.settle_set_state 0 (Some (JString "bad state"))
                       hydrating_world))) =
    [SetFuture 0 0; ConsoleLog "Message received:" [AMessage stream_msg]].
Proof. by vm_compute. Qed.

End HydrationFailure.

(** ** The two variants on widget-free messages *)

Section Variants.

Implicit Types (w : World) (a : AreaRef) (f : FutureRef) (msg : IOPubMessage).

Lemma executeCode_same w : App.executeCode w = AppReduced.executeCode w.
Proof. reflexivity. Qed.





(** With widget state the variants differ: only the full one hydrates. *)
Example variants_differ_on_widget_state :
  count is_set_state (effects (App.deliver_iopub 0 widget_msg running_world)) = 1 ∧
  count is_set_state
    (effects (AppReduced.deliver_iopub 0 widget_msg running_world)) = 0.
Proof. split; by vm_compute. Qed.

End Variants.

(** * Further properties of the event loop *)

(** ** Invariants of runs *)

(** One case per way a task can go; [tac] is run on each and what it
    leaves is returned, in the order of the cases. *)
Ltac step_analysis e w tac :=
  destruct e as [name|k outputRef_current|err|text|text| |f msg|f err|p err
                |k msg|c msg|c msg|c call];
  unfold App.step;
  [ unfold App.kernel_started; js; tac
  | js; destruct (kernels w !! k) as [kn|] eqn:Hkn;
      [destruct (awaiting_context kn) eqn:Hawait;
         [unfold App.context_ready; js; destruct outputRef_current; js; tac
         |js; tac]
      |js; tac]
  | unfold App.start_failed; js; tac
  | unfold App.handleEditorDidMount; js; tac
  | js; destruct (editorRef w) as [ed|] eqn:Hed; js; tac
  | js; destruct (kernelStarted w) eqn:Hstarted;
      [destruct (executeCode_cases w)
         as [[Hskip ->]|(k & o & c & Hk & Ho & Hc & Hne & ->)];
       cbn [effects world fst snd]; tac
      |js; tac]
  | rewrite deliver_iopub_eq;
    destruct (futures w !! f) as [fu|] eqn:Hfu; cbn [mbind option_bind];
      [destruct (onIOPub fu) as [cl|] eqn:Hcl;
         [destruct (handle_iopub_cases (cl_outputArea cl) (cl_future cl) msg w)
            as [[Hplain ->]|(widgetState & m & Hws & Hm & ->)];
          cbn [effects world fst snd]; tac
         |js; tac]
      |js; tac]
  | unfold App.settle_done; js;
    destruct (futures w !! f) as [fu|] eqn:Hfu;
      [destruct (done_watched fu) eqn:Hwatched;
         [destruct err as [err|]; unfold App.done_then, App.done_catch; js; tac
         |js; tac]
      |js; tac]
  | unfold App.settle_set_state; js;
    destruct (promises w !! p) as [pr|] eqn:Hpr;
      [destruct (pr_settled pr) eqn:Hsettled;
         [js; tac
         |destruct err as [err|];
          unfold App.set_state_then, App.set_state_catch; js; tac]
      |js; tac]
  | unfold App.deliver_comm_open; js;
    destruct (kernels w !! k) as [kn|] eqn:Hkn;
      [destruct (bool_decide (cm_target_name msg ∈ targets kn)) eqn:Htarget;
         [unfold App.on_comm_open; js;
          destruct (managerRef w) as [m|] eqn:Hm; js; tac
         |js; tac]
      |js; tac]
  | unfold App.deliver_comm_msg; js;
    destruct (comms w !! c) as [comm|] eqn:Hcomm; cbn [mbind option_bind];
      [destruct (onMsg comm) as [callback|] eqn:Hcb;
       unfold App.onMsg_closure; js; tac
      |js; tac]
  | unfold App.deliver_comm_close; js;
    destruct (comms w !! c) as [comm|] eqn:Hcomm; cbn [mbind option_bind];
      [destruct (onClose comm) as [callback|] eqn:Hcb;
       unfold App.onClose_closure; js; tac
      |js; tac]
  | js; destruct (comms w !! c) as [comm|] eqn:Hcomm;
      [destruct call; cbn [App.view_call];
       unfold App.on_msg, App.on_close, App.send, App.close, App.open; js; tac
      |js; tac]
  ].

Section RunInvariants.

Local Open Scope nat_scope.

Implicit Types (w : World) (e : App.Event) (journal : list Effect).

(** An invariant of world and journal that every admissible task keeps
    holds along every run of admissible tasks. *)
Lemma run_invariant (ok : App.Event → bool) (P : World → list Effect → Prop) :
  (∀ w journal e, ok e = true → wf w → P w journal →
     P (world (App.step e w)) (journal ++ effects (App.step e w))) →
  ∀ events w journal, forallb ok events = true → wf w → P w journal →
    P (world (App.run events w)) (journal ++ effects (App.run events w)).
Proof.
  intros Hstep events.
  induction events as [|e events IH]; intros w journal Hok Hwf HP.
  - cbn. by rewrite app_nil_r.
  - cbn in Hok. apply andb_true_iff in Hok as [He Hok].
    rewrite run_cons. cbn [effects world fst snd]. rewrite app_assoc.
    apply IH; [done|by apply wf_step|by apply Hstep].
Qed.

Lemma forallb_true {A} (l : list A) : forallb (fun _ => true) l = true.
Proof. by induction l. Qed.

Lemma reachable_invariant (P : World → list Effect → Prop) :
  P initial [] →
  (∀ w journal e, wf w → P w journal →
     P (world (App.step e w)) (journal ++ effects (App.step e w))) →
  ∀ events, P (world (App.run events initial)) (effects (App.run events initial)).
Proof.
  intros Hinit Hstep events.
  apply (run_invariant (fun _ => true) P (fun w j e _ => Hstep w j e)
           events initial [] (forallb_true events) wf_initial Hinit).
Qed.

Lemma submitted_futures k o c w :
  futures (submitted k o c w) =
    futures w ++
    [{| fut_kernel := k; fut_code := c;
        onIOPub := Some {| cl_outputArea := o; cl_future := length (futures w) |};
        done_watched := true |}].
Proof.
  cbn. rewrite list_alter_alter_eq, alter_app_r_alt by lia.
  by rewrite Nat.sub_diag.
Qed.

Lemma coherent_initial : coherent initial.
Proof. split; try done. intros [? ?]; done. Qed.

Lemma coherent_step e w : coherent w → coherent (world (App.step e w)).
Proof.
  intros [Ikernel Istarted Iarea Ifut Itargets].
  step_analysis e w ltac:(try (split; cbn; try rewrite Hstarted in *; try rewrite Hm in *; by auto)).
  - (* a kernel connection is started *)
    split; cbn; try done.
    + rewrite length_app. cbn. lia.
    + intros Hs. destruct (Istarted Hs). by split.
    + intros f fu Hf. destruct (Ifut f fu Hf) as (? & ? & ?).
      rewrite length_app. repeat split; try done. lia.
    + intros k kn [[_ Hin]|[_ <-]]%lookup_snoc_Some; eauto.
  - (* start-up continues, with an output area *)
    assert (is_Some (kernel w)) as Hsome.
    { destruct (kernel w); [done|]. rewrite Ikernel in Hkn. done. }
    split; cbn; try done.
    + destruct (kernel w); by rewrite ?length_alter.
    + intros f fu Hf. rewrite !length_alter. eauto.
    + intros k' kn'. rewrite list_alter_alter_eq, list_lookup_alter.
      case_decide as Hk'; [subst k'|by eauto].
      rewrite Hkn. intros [= <-]. cbn.
      by rewrite (Itargets k kn Hkn), Hawait.
  - (* start-up continues, without an output area *)
    assert (is_Some (kernel w)) as Hsome.
    { destruct (kernel w); [done|]. rewrite Ikernel in Hkn. done. }
    split; cbn; try done.
    + destruct (kernel w); by rewrite ?length_alter.
    + intros f fu Hf. rewrite !length_alter. eauto.
    + intros k' kn'. rewrite list_alter_alter_eq, list_lookup_alter.
      case_decide as Hk'; [subst k'|by eauto].
      rewrite Hkn. intros [= <-]. cbn.
      by rewrite (Itargets k kn Hkn), Hawait.
  - (* a submission *)
    split; [exact Ikernel|intros _; by apply Istarted|by intros _
           | |exact Itargets].
    intros f fu. rewrite submitted_futures.
    intros [[_ Hf]|[_ <-]]%lookup_snoc_Some; [by eauto|].
    cbn. rewrite Hk in Ikernel. repeat split; [done|lia].
Qed.

Lemma coherent_run events w : coherent w → coherent (world (App.run events w)).
Proof.
  revert w. induction events as [|e events IH]; intros w Hw; [done|].
  rewrite run_cons. cbn [effects world fst snd]. by apply IH, coherent_step.
Qed.

Lemma reachable_coherent w : reachable w → coherent w.
Proof. intros [events ->]. apply coherent_run, coherent_initial. Qed.

End RunInvariants.

(** ** The session behind the Run button *)

Section Session.

Local Open Scope nat_scope.

Implicit Types (w : World) (e : App.Event) (f : FutureRef) (journal : list Effect).

(** X2: in every reachable world the React state [kernel] is the
    connection started last; the Run button is rendered only when kernel
    and widget manager exist; and an output area exists only when the
    button is rendered and the manager exists. *)
Theorem run_button_has_session w :
  reachable w →
  match kernel w with
  | Some k => S k = length (kernels w)
  | None => kernels w = []
  end ∧
  (kernelStarted w = true → is_Some (kernel w) ∧ is_Some (managerRef w)) ∧
  (is_Some (outputArea w) → kernelStarted w = true ∧ is_Some (managerRef w)).
Proof.
  intros Hw. destruct (reachable_coherent _ Hw) as [Hkernel Hstarted Harea _ _].
  split; [done|]. split; [done|].
  intros Ho. split; [by apply Harea|]. by apply Hstarted, Harea.
Qed.

Lemma run_button_has_session_witness :
  reachable (ready_world "") ∧
  match kernel (ready_world "") with
  | Some k => S k = length (kernels (ready_world ""))
  | None => kernels (ready_world "") = []
  end ∧
  (kernelStarted (ready_world "") = true →
     is_Some (kernel (ready_world "")) ∧ is_Some (managerRef (ready_world ""))) ∧
  (is_Some (outputArea (ready_world "")) →
     kernelStarted (ready_world "") = true ∧
     is_Some (managerRef (ready_world ""))).
Proof.
  split; [apply ready_world_reachable|].
  apply (run_button_has_session (ready_world "") (ready_world_reachable "")).
Defined.

Lemma count_app p journal1 journal2 :
  count p (journal1 ++ journal2) = count p journal1 + count p journal2.
Proof. induction journal1 as [|e journal1 IH]; cbn; [done|]. rewrite IH. lia. Qed.

(** The diagnostic of the [!kernel] branch. *)
Lemma no_kernel_error_step e w :
  coherent w →
  ConsoleError "Kernel not initialized." [] ∉ effects (App.step e w).
Proof.
  intros [Ikernel Istarted _ _ _].
  step_analysis e w ltac:(try (rewrite ?elem_of_cons, ?elem_of_nil;
                               intuition discriminate)).
  unfold skip_journal.
  destruct (Istarted eq_refl) as [[k ->] _].
  destruct (outputArea w); cbn; rewrite ?elem_of_cons, ?elem_of_nil;
    intuition discriminate.
Qed.

(** X3: the [!kernel] branch of [executeCode] is dead behind the Run
    button: no run of the event loop ever reports
    ["Kernel not initialized."]. *)
Theorem kernel_diagnostic_never_reported events :
  ConsoleError "Kernel not initialized." [] ∉ effects (App.run events initial).
Proof.
  pose proof coherent_initial as Hco. revert Hco.
  generalize initial as w.
  induction events as [|e events IH]; intros w Hco.
  - by intros ?%elem_of_nil.
  - rewrite run_cons. cbn [effects world fst snd].
    intros [Hin|Hin]%elem_of_app.
    + by apply (no_kernel_error_step e w Hco).
    + by apply (IH _ (coherent_step e w Hco)).
Qed.

(** X5: when [future.done] of any future of a reachable world settles,
    the reaction attached by [executeCode] runs: a rejection is reported
    with [console.error], a fulfilment with [console.log]; either way the
    world is untouched (nothing is resubmitted, cleared or rebound). *)
Theorem completion_is_only_reported w f err :
  reachable w → f < length (futures w) →
  App.settle_done f (Some err) w =
    (tt, w, [ConsoleError "Execution error:" [AError err]]) ∧
  App.settle_done f None w = (tt, w, [ConsoleLog "Execution completed" []]).
Proof.
  intros Hw [fu Hf]%lookup_lt_is_Some.
  destruct (co_futures _ (reachable_coherent _ Hw) _ _ Hf) as (Hwatched & _).
  unfold App.settle_done. js. by rewrite Hf, Hwatched.
Qed.

Lemma completion_is_only_reported_witness :
  reachable running_world ∧ 0 < length (futures running_world) ∧
  App.settle_done 0 (Some (JString "dead kernel")) running_world =
    (tt, running_world,
     [ConsoleError "Execution error:" [AError (JString "dead kernel")]]) ∧
  App.settle_done 0 None running_world =
    (tt, running_world, [ConsoleLog "Execution completed" []]).
Proof.
  split; [exact running_world_reachable|]. split; [vm_compute; lia|].
  apply (completion_is_only_reported running_world 0 (JString "dead kernel")
           running_world_reachable).
  vm_compute; lia.
Defined.

End Session.

(** ** The journal against the heap *)

Section JournalAndHeap.

Local Open Scope nat_scope.

Implicit Types (w : World) (e : App.Event) (journal : list Effect).

Lemma requests_app journal1 journal2 :
  requests (journal1 ++ journal2) = requests journal1 ++ requests journal2.
Proof. apply omap_app. Qed.

Lemma hydrations_app journal1 journal2 :
  hydrations (journal1 ++ journal2) = hydrations journal1 ++ hydrations journal2.
Proof. apply omap_app. Qed.

Lemma registrations_app journal1 journal2 :
  registrations (journal1 ++ journal2) =
    registrations journal1 ++ registrations journal2.
Proof. apply omap_app. Qed.

Lemma imap_snoc {A B} (g : nat → A → B) (l : list A) (x : A) :
  imap g (l ++ [x]) = imap g l ++ [g (length l) x].
Proof. rewrite imap_app. cbn. by rewrite Nat.add_0_r. Qed.

Lemma imap_alter_same {A B} (g : nat → A → B) (h : A → A) (i : nat) (l : list A) :
  (∀ j x, g j (h x) = g j x) → imap g (alter h i l) = imap g l.
Proof.
  intros Hg. apply list_eq. intros j.
  rewrite !list_lookup_imap, list_lookup_alter.
  case_decide; [subst j|done].
  destruct (l !! i); cbn; [|done]. by rewrite Hg.
Qed.

(** X4: in every run the submissions of the journal are, in order, the
    futures of the heap (the i-th [requestExecute] call made future [i],
    with the kernel and the code recorded in it), and every submission
    comes with exactly one clearing of a model: as many [model.clear]
    calls as [requestExecute] calls. *)
Theorem submissions_match_futures events :
  requests (effects (App.run events initial)) =
    imap (fun f fu => (fut_kernel fu, fut_code fu, f))
      (futures (world (App.run events initial))) ∧
  count is_model_clear (effects (App.run events initial)) =
    length (futures (world (App.run events initial))) ∧
  count is_request (effects (App.run events initial)) =
    length (futures (world (App.run events initial))).
Proof.
  apply (reachable_invariant (fun w journal =>
    requests journal = imap (fun f fu => (fut_kernel fu, fut_code fu, f)) (futures w) ∧
    count is_model_clear journal = length (futures w) ∧
    count is_request journal = length (futures w))); [done|].
  intros w journal e _ (Hreq & Hclear & Hcount).
  rewrite requests_app, !count_app, Hreq, Hclear, Hcount.
  step_analysis e w ltac:(try (cbn; rewrite ?app_nil_r, ?Nat.add_0_r; done)).
  - unfold skip_journal. destruct (kernel w), (outputArea w); cbn;
      by rewrite ?app_nil_r, ?Nat.add_0_r.
  - rewrite submitted_futures, imap_snoc, length_app. cbn.
    repeat split; lia.
Qed.

(** X6: in every run the [set_state] calls of the journal are, in order,
    the promises of the heap: the i-th call made promise [i], which holds
    the payload handed to the widget manager; so when a pending promise
    fulfils, the [.then] reaction logs exactly the payload of the call
    that made it. *)
Theorem hydrations_match_promises events :
  hydrations (effects (App.run events initial)) =
    imap (fun p pr => (pr_widgetState pr, p))
      (promises (world (App.run events initial))) ∧
  ∀ widgetState p pr,
    (widgetState, p) ∈ hydrations (effects (App.run events initial)) →
    promises (world (App.run events initial)) !! p = Some pr →
    pr_settled pr = false →
    App.settle_set_state p None (world (App.run events initial)) =
      (tt, settled_at p (world (App.run events initial)),
       [ConsoleLog "Widget state has been applied successfully:"
          [AValue widgetState]]).
Proof.
  assert (hydrations (effects (App.run events initial)) =
            imap (fun p pr => (pr_widgetState pr, p))
              (promises (world (App.run events initial)))) as Heq.
  { apply (reachable_invariant (fun w journal =>
      hydrations journal = imap (fun p pr => (pr_widgetState pr, p)) (promises w)));
      [done|].
    intros w journal e _ Hhyd. rewrite hydrations_app, Hhyd.
    step_analysis e w ltac:(try (cbn; rewrite ?app_nil_r; done)).
    - unfold skip_journal. destruct (kernel w), (outputArea w); cbn;
        by rewrite ?app_nil_r.
    - cbn. by rewrite imap_snoc.
    - cbn. rewrite app_nil_r. by rewrite imap_alter_same.
    - cbn. rewrite app_nil_r. by rewrite imap_alter_same. }
  split; [done|].
  intros widgetState p pr Hin Hp Hpending.
  rewrite (settle_set_state_pending p pr None _ Hp Hpending).
  rewrite Heq in Hin. apply list_elem_of_lookup in Hin as [i Hi].
  rewrite list_lookup_imap in Hi.
  destruct (promises (world (App.run events initial)) !! i) as [pr'|] eqn:Hi';
    [|done].
  cbn in Hi. injection Hi as <- <-. rewrite Hi' in Hp. by injection Hp as <-.
Qed.

Lemma hydrations_match_promises_witness :
  hydrations
    (effects (App.run [App.KernelStarts "python3"; App.ContextReady 0 true;
                       App.EditorMounts "1+1"; App.ClickRun;
                       App.IOPub 0 widget_msg] initial)) =
    imap (fun p pr => (pr_widgetState pr, p))
      (promises
         (world (App.run [App.KernelStarts "python3"; App.ContextReady 0 true;
                          App.EditorMounts "1+1"; App.ClickRun;
                          App.IOPub 0 widget_msg] initial))).
Proof.
  apply (hydrations_match_promises
           [App.KernelStarts "python3"; App.ContextReady 0 true;
            App.EditorMounts "1+1"; App.ClickRun; App.IOPub 0 widget_msg]).
Defined.

Ltac no_such_call Hin :=
  exfalso; revert Hin; cbn; rewrite ?elem_of_cons, ?elem_of_nil;
  intuition discriminate.

(** X7: every view handed to the widget manager, in any run, is a view of
    the widget target: the open message names ["jupyter.widget"], the view
    carries the comm id of the message and that target name, and it
    refers to a comm of the heap with the same id and target name. *)
Theorem handed_views_are_widget_views events m' view msg' :
  HandleCommOpen m' view msg' ∈ effects (App.run events initial) →
  cm_target_name msg' = WIDGET_TARGET ∧
  target_name view = WIDGET_TARGET ∧
  comm_id view = cm_comm_id msg' ∧
  ∃ comm, comms (world (App.run events initial)) !! view_comm view = Some comm ∧
    commId comm = comm_id view ∧ targetName comm = target_name view.
Proof.
  revert m' view msg'.
  apply (reachable_invariant (fun w journal => ∀ m' view msg',
    HandleCommOpen m' view msg' ∈ journal →
    cm_target_name msg' = WIDGET_TARGET ∧
    target_name view = WIDGET_TARGET ∧
    comm_id view = cm_comm_id msg' ∧
    ∃ comm, comms w !! view_comm view = Some comm ∧
      commId comm = comm_id view ∧ targetName comm = target_name view)).
  { intros ??? Hin. by apply elem_of_nil in Hin. }
  intros w journal e Hwf HP.
  assert (∀ (h : Comm → Comm) i m' view msg',
            (∀ x, commId (h x) = commId x ∧ targetName (h x) = targetName x) →
            HandleCommOpen m' view msg' ∈ journal →
            cm_target_name msg' = WIDGET_TARGET ∧
            target_name view = WIDGET_TARGET ∧
            comm_id view = cm_comm_id msg' ∧
            ∃ comm, alter h i (comms w) !! view_comm view = Some comm ∧
              commId comm = comm_id view ∧ targetName comm = target_name view)
    as Halter.
  { intros h i m' view msg' Hh Hin.
    destruct (HP _ _ _ Hin) as (? & ? & ? & comm & Hc & ? & ?).
    repeat split; try done. rewrite list_lookup_alter.
    case_decide; [subst i|by eauto].
    rewrite Hc. exists (h comm). destruct (Hh comm) as [-> ->]. by cbn. }
  assert (∀ x m' view msg',
            HandleCommOpen m' view msg' ∈ journal →
            cm_target_name msg' = WIDGET_TARGET ∧
            target_name view = WIDGET_TARGET ∧
            comm_id view = cm_comm_id msg' ∧
            ∃ comm, (comms w ++ [x]) !! view_comm view = Some comm ∧
              commId comm = comm_id view ∧ targetName comm = target_name view)
    as Hsnoc.
  { intros x m' view msg' Hin.
    destruct (HP _ _ _ Hin) as (? & ? & ? & comm & Hc & ? & ?).
    repeat split; try done. exists comm.
    by rewrite (lookup_app_l_Some _ _ _ _ Hc). }
  step_analysis e w ltac:(try (intros m' view msg' [Hin|Hin]%elem_of_app;
                               [by eapply HP|no_such_call Hin])).
  - (* the guard of executeCode fails *)
    intros m' view msg' [Hin|Hin]%elem_of_app; [by eapply HP|].
    unfold skip_journal in Hin.
    destruct (kernel w), (outputArea w); no_such_call Hin.
  - (* a comm is opened and handed over *)
    apply bool_decide_eq_true in Htarget.
    assert (cm_target_name msg = WIDGET_TARGET) as Hname.
    { apply (wf_targets _ Hwf _ _ Hkn) in Htarget.
      by apply list_elem_of_singleton in Htarget. }
    intros m' view msg' [Hin|Hin]%elem_of_app; [by eapply Hsnoc|].
    apply list_elem_of_singleton in Hin. injection Hin as -> -> ->.
    unfold comm_at. cbn. rewrite lookup_app_r, Nat.sub_diag by lia. cbn.
    repeat split; try done.
    by eexists.
  - (* a comm is opened while no manager exists *)
    intros m' view msg' [Hin|Hin]%elem_of_app; [by eapply Hsnoc|no_such_call Hin].
  - intros m' view msg' [Hin|Hin]%elem_of_app;
      [by eapply Halter|no_such_call Hin].
  - intros m' view msg' [Hin|Hin]%elem_of_app;
      [by eapply Halter|no_such_call Hin].
  - intros m' view msg' [Hin|Hin]%elem_of_app;
      [by eapply Halter|no_such_call Hin].
Qed.

Lemma handed_views_are_widget_views_witness :
  HandleCommOpen 0 (App.classicComm 0 c1) open_msg ∈
    effects (App.run [App.KernelStarts "python3"; App.ContextReady 0 true;
                      App.CommOpens 0 open_msg] initial) ∧
  cm_target_name open_msg = WIDGET_TARGET ∧
  target_name (App.classicComm 0 c1) = WIDGET_TARGET ∧
  comm_id (App.classicComm 0 c1) = cm_comm_id open_msg ∧
  ∃ comm,
    comms (world (App.run [App.KernelStarts "python3"; App.ContextReady 0 true;
                           App.CommOpens 0 open_msg] initial))
      !! view_comm (App.classicComm 0 c1) = Some comm ∧
    commId comm = comm_id (App.classicComm 0 c1) ∧
    targetName comm = target_name (App.classicComm 0 c1).
Proof.
  assert (HandleCommOpen 0 (App.classicComm 0 c1) open_msg ∈
            effects (App.run [App.KernelStarts "python3"; App.ContextReady 0 true;
                              App.CommOpens 0 open_msg] initial)) as Hin.
  { vm_compute. do 2 apply list_elem_of_further. apply list_elem_of_here. }
  split; [exact Hin|].
  exact (handed_views_are_widget_views _ _ _ _ Hin).
Defined.

(** X8: in every run the widget target is the only comm target ever
    registered and it is registered at most once per kernel connection:
    exactly on the connections whose start-up continuation has run, which
    are the connections that have the target in their registry. *)
Theorem widget_target_registered_once events :
  NoDup (registrations (effects (App.run events initial))) ∧
  ∀ k' name',
    (k', name') ∈ registrations (effects (App.run events initial)) ↔
    name' = WIDGET_TARGET ∧
    ∃ kn', kernels (world (App.run events initial)) !! k' = Some kn' ∧
      awaiting_context kn' = false ∧ targets kn' = [WIDGET_TARGET].
Proof.
  assert (NoDup (registrations (effects (App.run events initial))) ∧
          ∀ k' name',
            (k', name') ∈ registrations (effects (App.run events initial)) ↔
            name' = WIDGET_TARGET ∧
            ∃ kn', kernels (world (App.run events initial)) !! k' = Some kn' ∧
              awaiting_context kn' = false) as [Hnodup Hiff].
  { apply (reachable_invariant (fun w journal =>
      NoDup (registrations journal) ∧
      ∀ k' name', (k', name') ∈ registrations journal ↔
        name' = WIDGET_TARGET ∧
        ∃ kn', kernels w !! k' = Some kn' ∧ awaiting_context kn' = false)).
    { split; [constructor|]. intros k' name'. split.
      - by intros ?%elem_of_nil.
      - by intros (_ & kn' & ? & _). }
    intros w journal e _ [Hnodup Hiff]. rewrite registrations_app.
    step_analysis e w ltac:(try (cbn; rewrite ?app_nil_r; by split)).
    - (* a kernel connection is started: it still awaits its context *)
      cbn. rewrite app_nil_r. split; [done|].
      intros k' name'. rewrite Hiff. split.
      + intros (-> & kn' & Hk' & Haw). split; [done|]. exists kn'.
        by rewrite (lookup_app_l_Some _ _ _ _ Hk').
      + intros (-> & kn' & [[_ Hk']|[_ <-]]%lookup_snoc_Some & Haw);
          [by eauto|done].
    - (* start-up continues, with an output area *)
      cbn. split.
      + apply NoDup_app. split; [done|]. split; [|apply NoDup_singleton].
        intros [k' name'] Hin [= -> ->]%list_elem_of_singleton.
        apply (proj1 (Hiff _ _)) in Hin as (_ & kn' & Hk' & Haw). congruence.
      + intros k' name'.
        rewrite elem_of_app, list_elem_of_singleton, Hiff.
        rewrite list_alter_alter_eq, list_lookup_alter. split.
        * intros [(-> & kn' & Hk' & Haw)|[= -> ->]]; (split; [done|]).
          -- case_decide; [subst k'|by eauto]. congruence.
          -- rewrite decide_True by done. rewrite Hkn. by eexists.
        * intros (-> & kn' & Hk' & Haw). case_decide; [subst k'; by right|].
          left. by eauto.
    - (* start-up continues, without an output area *)
      cbn. split.
      + apply NoDup_app. split; [done|]. split; [|apply NoDup_singleton].
        intros [k' name'] Hin [= -> ->]%list_elem_of_singleton.
        apply (proj1 (Hiff _ _)) in Hin as (_ & kn' & Hk' & Haw). congruence.
      + intros k' name'.
        rewrite elem_of_app, list_elem_of_singleton, Hiff.
        rewrite list_alter_alter_eq, list_lookup_alter. split.
        * intros [(-> & kn' & Hk' & Haw)|[= -> ->]]; (split; [done|]).
          -- case_decide; [subst k'|by eauto]. congruence.
          -- rewrite decide_True by done. rewrite Hkn. by eexists.
        * intros (-> & kn' & Hk' & Haw). case_decide; [subst k'; by right|].
          left. by eauto.
    - (* the guard of executeCode fails *)
      unfold skip_journal. destruct (kernel w), (outputArea w); cbn;
        rewrite ?app_nil_r; by split. }
  split; [done|]. intros k' name'. rewrite Hiff.
  assert (coherent (world (App.run events initial))) as Hco
    by (apply reachable_coherent; by eexists).
  split.
  - intros (-> & kn' & Hk' & Haw). split; [done|]. exists kn'.
    repeat split; try done. by rewrite (co_targets _ Hco _ _ Hk'), Haw.
  - intros (-> & kn' & Hk' & Haw & _). by eauto.
Qed.

End JournalAndHeap.



(** ** The two slots of a view, and distinct comms *)

Section Slots.

Implicit Types (w : World) (c : CommRef) (comm : Comm) (msg : CommMessage).

(** X11: the message slot and the close slot of a view are independent,
    and so are the views of distinct comms: [on_msg] and [on_close] can be
    called in either order with the same result, after which a message
    reaches the [on_msg] callback only and a close notification the
    [on_close] callback only; and registering on one comm changes nothing
    for the messages of another. *)
Theorem slots_are_independent w c comm c' comm' callback1 callback2 msg :
  comms w !! c = Some comm → comms w !! c' = Some comm' → c ≠ c' →
  world (App.on_close (App.classicComm c comm) callback2
           (world (App.on_msg (App.classicComm c comm) callback1 w))) =
    world (App.on_msg (App.classicComm c comm) callback1
             (world (App.on_close (App.classicComm c comm) callback2 w))) ∧
  effects (App.deliver_comm_msg c msg
             (world (App.on_close (App.classicComm c comm) callback2
                       (world (App.on_msg (App.classicComm c comm) callback1 w))))) =
    [Invoke callback1 msg] ∧
  effects (App.deliver_comm_close c msg
             (world (App.on_close (App.classicComm c comm) callback2
                       (world (App.on_msg (App.classicComm c comm) callback1 w))))) =
    [Invoke callback2 msg] ∧
  App.deliver_comm_msg c' msg
    (world (App.on_msg (App.classicComm c comm) callback1 w)) =
    (tt, world (App.on_msg (App.classicComm c comm) callback1 w),
     effects (App.deliver_comm_msg c' msg w)) ∧
  App.deliver_comm_close c' msg
    (world (App.on_close (App.classicComm c comm) callback2 w)) =
    (tt, world (App.on_close (App.classicComm c comm) callback2 w),
     effects (App.deliver_comm_close c' msg w)).
Proof.
  intros Hc Hc' Hne. rewrite !on_msg_eq, !on_close_eq.
  cbn [world effects fst snd view_comm App.classicComm].
  split; [|split; [|split; [|split]]].
  - unfold with_comms. cbn. f_equal.
    rewrite !list_alter_alter_eq. by apply list_alter_ext.
  - unfold App.deliver_comm_msg. js.
    by rewrite !list_lookup_alter_eq, Hc.
  - unfold App.deliver_comm_close. js.
    by rewrite !list_lookup_alter_eq, Hc.
  - unfold App.deliver_comm_msg. js.
    rewrite list_lookup_alter_ne by done. rewrite Hc'. cbn.
    by destruct (onMsg comm').
  - unfold App.deliver_comm_close. js.
    rewrite list_lookup_alter_ne by done. rewrite Hc'. cbn.
    by destruct (onClose comm').
Qed.

Lemma slots_are_independent_witness :
  comms two_comm_world !! 0 = Some c1 ∧
  comms two_comm_world !! 1 = Some c2 ∧ 0 ≠ 1 ∧
  effects (App.deliver_comm_msg 0 open_msg
             (world (App.on_close (App.classicComm 0 c1) 9
                       (world (App.on_msg (App.classicComm 0 c1) 7
                                 two_comm_world))))) =
    [Invoke 7 open_msg].
Proof.
  split; [by vm_compute|]. split; [by vm_compute|]. split; [done|].
  apply (slots_are_independent two_comm_world 0 c1 1 c2 7 9 open_msg);
    [by vm_compute|by vm_compute|done].
Defined.

End Slots.

(** ** Before the start-up continuation has run *)

Section BeforeContext.

Local Open Scope nat_scope.

Implicit Types (w : World) (e : App.Event) (journal : list Effect).

Lemma count_none p q journal :
  (∀ x, p x = true → q x = true) → count q journal = 0 → count p journal = 0.
Proof.
  intros Hpq. induction journal as [|x journal IH]; [done|].
  cbn. destruct (p x) eqn:Hp.
  - by rewrite (Hpq x Hp).
  - destruct (q x); [done|]. exact IH.
Qed.

Lemma registrations_none journal :
  count is_call journal = 0 → registrations journal = [].
Proof.
  induction journal as [|x journal IH]; [done|].
  cbn. destruct x; cbn; try done; exact IH.
Qed.

Lemma run_before_context events :
  forallb before_context events = true →
  (kernelStarted (world (App.run events initial)) = false ∧
   outputArea (world (App.run events initial)) = None ∧
   managerRef (world (App.run events initial)) = None ∧
   futures (world (App.run events initial)) = []) ∧
  count is_call (effects (App.run events initial)) = 0.
Proof.
  intros Hevents.
  pose proof (run_invariant before_context (fun w journal =>
    (kernelStarted w = false ∧ outputArea w = None ∧ managerRef w = None ∧
     futures w = [] ∧ comms w = [] ∧ promises w = [] ∧
     ∀ k' kn', kernels w !! k' = Some kn' → targets kn' = []) ∧
    count is_call journal = 0)) as Hinv.
  destruct (Hinv) with (events := events) (w := initial) (journal := @nil Effect)
    as ((? & ? & ? & ? & _) & ?); try done.
  clear Hinv Hevents events.
  intros w journal e He _ ((Istarted & Iarea & Imgr & Ifut & Icomms & Ipromises & Itargets)
                           & Icount).
  rewrite count_app, Icount.
  step_analysis e w ltac:(try discriminate; try congruence;
                          try (by rewrite ?Ifut in *; rewrite ?Icomms in *;
                                  rewrite ?Ipromises in * ));
    try (by repeat split; auto).
  - (* a kernel connection is started *)
    repeat split; auto.
    intros k' kn' [[_ Hin]|[_ <-]]%lookup_snoc_Some; by eauto.
  - (* a comm-open message: no target is registered *)
    apply bool_decide_eq_true in Htarget.
    rewrite (Itargets _ _ Hkn) in Htarget. by apply elem_of_nil in Htarget.
Qed.

(** X12: as long as no start-up continuation has run (no
    [createFakeContext] has resolved), whatever else happens, the Run
    button is not rendered and there is no widget manager, no output
    area and no future; the component submits no code, clears and binds
    no output area, hands nothing to the widget manager and registers no
    comm target. *)
Theorem nothing_submitted_before_context events :
  forallb before_context events = true →
  kernelStarted (world (App.run events initial)) = false ∧
  outputArea (world (App.run events initial)) = None ∧
  managerRef (world (App.run events initial)) = None ∧
  futures (world (App.run events initial)) = [] ∧
  count is_request (effects (App.run events initial)) = 0 ∧
  count is_model_clear (effects (App.run events initial)) = 0 ∧
  count is_set_future (effects (App.run events initial)) = 0 ∧
  count is_set_state (effects (App.run events initial)) = 0 ∧
  count is_handle_comm_open (effects (App.run events initial)) = 0 ∧
  registrations (effects (App.run events initial)) = [].
Proof.
  intros Hevents.
  destruct (run_before_context events Hevents) as ((? & ? & ? & ?) & Hcount).
  repeat split; try done.
  1-5: apply (count_none _ is_call _); [by intros []|exact Hcount].
  by apply registrations_none.
Qed.

Lemma nothing_submitted_before_context_witness :
  forallb before_context
    [App.KernelStarts "python3"; App.StartFails (JString "no server");
     App.ClickRun; App.CommOpens 0 open_msg] = true ∧
  count is_request
    (effects (App.run [App.KernelStarts "python3";
                       App.StartFails (JString "no server");
                       App.ClickRun; App.CommOpens 0 open_msg] initial)) = 0 ∧
  registrations
    (effects (App.run [App.KernelStarts "python3";
                       App.StartFails (JString "no server");
                       App.ClickRun; App.CommOpens 0 open_msg] initial)) = [].
Proof.
  split; [reflexivity|].
  pose proof (nothing_submitted_before_context
           [App.KernelStarts "python3"; App.StartFails (JString "no server");
            App.ClickRun; App.CommOpens 0 open_msg] eq_refl) as H.
  split; [apply H|apply H].
Defined.

End BeforeContext.

(** * The page: the component on the output area of the library *)

(** ** Equations of the accessor and of the dispatch *)

Section PageEquations.

Local Open Scope nat_scope.

Implicit Types (w : World) (e : App.Event) (a b : AreaRef) (f g h : FutureRef).
Implicit Types (msg : IOPubMessage) (fu : Future).

Lemma assign_future_eq a f w :
  Page.assign_future a f w = (tt, assigned a f w, [SetFuture a f]).
Proof.
  unfold Page.assign_future, assigned, taken_over, future_of. js.
  destruct (areas w !! a) as [area|] eqn:Harea; cbn; [|done].
  case_bool_decide; [done|].
  by destruct (future area) as [g|].
Qed.

Lemma drop_closure_idle fu : onIOPub fu = None → Page.drop_closure fu = fu.
Proof. destruct fu. cbn. by intros ->. Qed.

(** What the accessor leaves alone. *)
Lemma assigned_frame a f w :
  editorRef (assigned a f w) = editorRef w ∧
  kernel (assigned a f w) = kernel w ∧
  outputArea (assigned a f w) = outputArea w ∧
  managerRef (assigned a f w) = managerRef w ∧
  kernelStarted (assigned a f w) = kernelStarted w ∧
  kernels (assigned a f w) = kernels w ∧
  comms (assigned a f w) = comms w ∧
  managers (assigned a f w) = managers w ∧
  promises (assigned a f w) = promises w.
Proof.
  unfold assigned, taken_over.
  destruct (areas w !! a) as [area|]; [|done].
  case_bool_decide; [done|]. by destruct (future_of a w).
Qed.

Lemma taken_over_areas a f w :
  areas (taken_over a f w) = alter (Page.take_over f) a (areas w).
Proof. unfold taken_over. by destruct (future_of a w). Qed.

Lemma taken_over_futures a f w h :
  futures (taken_over a f w) !! h =
    (fun fu => if decide (h = f ∨ future_of a w = Some h)
               then Page.drop_closure fu else fu) <$> futures w !! h.
Proof.
  unfold taken_over. destruct (future_of a w) as [g|]; cbn.
  - rewrite !list_lookup_alter.
    repeat case_decide; subst; destruct (futures w !! _) as [fu|]; cbn;
      try done; try (exfalso; by intuition congruence).
  - rewrite !list_lookup_alter.
    repeat case_decide; subst; destruct (futures w !! _) as [fu|]; cbn;
      try done; exfalso; by intuition congruence.
Qed.

Lemma page_handle_iopub_cases a f msg w :
  ((App.widget_state msg = None ∨ managerRef w = None) ∧
   Page.handle_iopub a f msg w =
     (tt, assigned a f w,
      [SetFuture a f; ConsoleLog "Message received:" [AMessage msg]])) ∨
  ∃ widgetState m, App.widget_state msg = Some widgetState ∧
    managerRef w = Some m ∧
    Page.handle_iopub a f msg w =
      (tt, hydrating widgetState (assigned a f w),
       [SetFuture a f; SetState m widgetState (length (promises w));
        ConsoleLog "Message received:" [AMessage msg]]).
Proof.
  destruct (assigned_frame a f w) as (_ & _ & _ & Hmgr & _ & _ & _ & _ & Hpr).
  unfold Page.handle_iopub. js. rewrite assign_future_eq. cbn.
  destruct (App.widget_state msg) as [ws|] eqn:Hws; cbn;
    [rewrite Hmgr; destruct (managerRef w) as [m|] eqn:Hm|]; cbn.
  - right. exists ws, m. unfold hydrating. by rewrite Hpr.
  - left. split; [by right|done].
  - left. split; [by left|done].
Qed.

Lemma page_deliver_iopub_eq f msg w :
  Page.deliver_iopub f msg w =
    match futures w !! f ≫= onIOPub with
    | Some cl => Page.handle_iopub (cl_outputArea cl) (cl_future cl) msg w
    | None =>
        match bound_area f w with
        | Some a => (tt, rendered a msg w, [])
        | None => (tt, w, [])
        end
    end.
Proof.
  unfold Page.deliver_iopub. js.
  destruct (futures w !! f) as [fu|]; cbn; [destruct (onIOPub fu) as [cl|]|].
  - by destruct (Page.handle_iopub _ _ _ _) as [[[] ?] ?].
  - by destruct (bound_area f w).
  - by destruct (bound_area f w).
Qed.

Lemma page_step_other e w : not_iopub e = true → Page.step e w = App.step e w.
Proof. by destruct e. Qed.

Lemma page_run_cons e events w :
  Page.run (e :: events) w =
    (tt, world (Page.run events (world (Page.step e w))),
     effects (Page.step e w) ++ effects (Page.run events (world (Page.step e w)))).
Proof.
  cbn. js.
  destruct (Page.step e w) as [[[] w1] j1]. cbn.
  by destruct (Page.run events w1) as [[[] w2] j2].
Qed.

Lemma page_run_app events1 events2 w :
  Page.run (events1 ++ events2) w =
    (tt, world (Page.run events2 (world (Page.run events1 w))),
     effects (Page.run events1 w) ++
     effects (Page.run events2 (world (Page.run events1 w)))).
Proof.
  revert w. induction events1 as [|e events1 IH]; intros w.
  - cbn. by destruct (Page.run events2 w) as [[[] w2] j2].
  - rewrite <- app_comm_cons, !page_run_cons, IH. cbn. by rewrite app_assoc.
Qed.

(** Without kernel messages the page runs as the component alone. *)
Lemma page_run_quiet events w :
  forallb not_iopub events = true → Page.run events w = App.run events w.
Proof.
  revert w. induction events as [|e events IH]; intros w Hq; [done|].
  cbn in Hq. apply andb_true_iff in Hq as [He Hq].
  rewrite page_run_cons, run_cons, page_step_other by done.
  by rewrite IH.
Qed.

End PageEquations.

(** ** The invariant of the page *)

Section PageInvariant.

Local Open Scope nat_scope.

Implicit Types (w : World) (e : App.Event) (a b : AreaRef) (f g h : FutureRef).
Implicit Types (msg : IOPubMessage) (fu : Future).

Lemma page_wf_initial : page_wf initial.
Proof. split; try done. Qed.

Lemma page_wf_frame w w' :
  page_wf w → outputArea w' = outputArea w → areas w' = areas w →
  futures w' = futures w → page_wf w'.
Proof.
  intros [I1 I2 I3 I4] Ho Ha Hf.
  split; unfold future_of in *; rewrite ?Ho, ?Ha, ?Hf; eauto.
Qed.

Lemma future_of_lt a g w : future_of a w = Some g → a < length (areas w).
Proof.
  unfold future_of. destruct (areas w !! a) as [area|] eqn:Ha; [|done].
  intros _. by eapply lookup_lt_Some.
Qed.

Lemma submitted_future_of k o c w b :
  future_of b (submitted k o c w) = future_of b w.
Proof.
  unfold future_of. cbn. rewrite list_lookup_alter.
  case_decide; [subst b|done]. by destruct (areas w !! o).
Qed.

Lemma page_wf_submitted k o c w :
  page_wf w → outputArea w = Some o → page_wf (submitted k o c w).
Proof.
  intros [I1 I2 I3 I4] Ho. split.
  - intros o'. cbn. rewrite length_alter. eauto.
  - intros f fu cl. rewrite submitted_futures.
    replace (length (areas (submitted k o c w))) with (length (areas w))
      by (cbn; by rewrite length_alter).
    intros [[_ Hf]|[<- <-]]%lookup_snoc_Some; [by eauto|].
    cbn. intros [= <-]. cbn. eauto.
  - intros a g. rewrite submitted_future_of, submitted_futures.
    intros (fu & Hg & Hcl)%I3. exists fu. split; [|done].
    rewrite lookup_app_l; [done|]. by eapply lookup_lt_Some.
  - intros a b g. rewrite !submitted_future_of. eauto.
Qed.

Lemma rendered_future_of a msg w b :
  future_of b (rendered a msg w) = future_of b w.
Proof.
  unfold future_of, rendered, render. cbn. rewrite list_lookup_alter.
  case_decide; [subst b|done]. destruct (areas w !! a); [|done].
  cbn. by destruct (is_output msg).
Qed.

Lemma page_wf_rendered a msg w : page_wf w → page_wf (rendered a msg w).
Proof.
  intros [I1 I2 I3 I4]. split.
  - intros o. cbn. rewrite length_alter. eauto.
  - intros f fu cl. cbn. rewrite length_alter. eauto.
  - intros b g. rewrite rendered_future_of. eauto.
  - intros b b' g. rewrite !rendered_future_of. eauto.
Qed.

Lemma page_wf_hydrating widgetState w :
  page_wf w → page_wf (hydrating widgetState w).
Proof. intros Hw. by apply (page_wf_frame w). Qed.

(** While its closure is installed a future is bound to no area, so the
    accessor takes it over. *)
Lemma unbound_while_installed w f fu cl a :
  page_wf w → futures w !! f = Some fu → onIOPub fu = Some cl →
  future_of a w ≠ Some f.
Proof.
  intros Hw Hf Hcl Ha.
  destruct (pw_bound _ Hw _ _ Ha) as (fu' & Hf' & Hnone). congruence.
Qed.

Lemma assigned_installed w f fu cl :
  page_wf w → futures w !! f = Some fu → onIOPub fu = Some cl →
  assigned (cl_outputArea cl) (cl_future cl) w = taken_over (cl_outputArea cl) f w ∧
  cl_future cl = f ∧
  is_Some (areas w !! cl_outputArea cl).
Proof.
  intros Hw Hf Hcl.
  destruct (pw_closure _ Hw _ _ _ Hf Hcl) as [-> Hlt].
  apply lookup_lt_is_Some in Hlt as [area Harea].
  split; [|by eauto]. unfold assigned. rewrite Harea.
  case_bool_decide as Hb; [|done].
  exfalso. apply (unbound_while_installed w _ fu cl (cl_outputArea cl) Hw Hf Hcl).
  unfold future_of. by rewrite Harea.
Qed.

Lemma taken_over_future_of a f w b :
  a < length (areas w) →
  future_of b (taken_over a f w) = if decide (b = a) then Some f else future_of b w.
Proof.
  intros [area Harea]%lookup_lt_is_Some.
  unfold future_of at 1. rewrite taken_over_areas, list_lookup_alter.
  case_decide as Hb; [subst b|by rewrite decide_False by done].
  by rewrite decide_True, Harea.
Qed.

Lemma page_wf_taken_over a f fu w :
  page_wf w → futures w !! f = Some fu → a < length (areas w) →
  (∀ b, future_of b w ≠ Some f) → page_wf (taken_over a f w).
Proof.
  intros [I1 I2 I3 I4] Hf Ha Hfree. split.
  - intros o. rewrite taken_over_areas, length_alter.
    unfold taken_over. destruct (future_of a w); cbn; eauto.
  - intros h fu' cl. rewrite taken_over_futures, taken_over_areas, length_alter.
    destruct (futures w !! h) as [fu0|] eqn:Hh; [|done]. cbn.
    case_decide; intros [= <-]; [done|]. eauto.
  - intros b g. rewrite taken_over_future_of by done.
    rewrite taken_over_futures. case_decide as Hb.
    + intros [= <-]. rewrite Hf. cbn. rewrite decide_True by auto. by eexists.
    + intros Hg. destruct (I3 _ _ Hg) as (fu0 & Hg0 & Hnone).
      rewrite Hg0. cbn. exists fu0.
      case_decide; [by rewrite drop_closure_idle|done].
  - intros b b' g. rewrite !taken_over_future_of by done.
    repeat case_decide; subst; try done.
    + intros [= <-] Hb'. by destruct (Hfree _ Hb').
    + intros Hb [= <-]. by destruct (Hfree _ Hb).
    + eauto.
Qed.

Lemma page_wf_assigned w f fu cl :
  page_wf w → futures w !! f = Some fu → onIOPub fu = Some cl →
  page_wf (assigned (cl_outputArea cl) (cl_future cl) w).
Proof.
  intros Hw Hf Hcl.
  destruct (assigned_installed w f fu cl Hw Hf Hcl) as (-> & _ & Hlt).
  apply (page_wf_taken_over _ _ fu); try done.
  - by apply lookup_lt_is_Some.
  - intros b. by apply (unbound_while_installed w f fu cl).
Qed.

Lemma page_wf_deliver f msg w :
  page_wf w → page_wf (world (Page.deliver_iopub f msg w)).
Proof.
  intros Hw. rewrite page_deliver_iopub_eq.
  destruct (futures w !! f) as [fu|] eqn:Hf; cbn;
    [destruct (onIOPub fu) as [cl|] eqn:Hcl|].
  - destruct (page_handle_iopub_cases (cl_outputArea cl) (cl_future cl) msg w)
      as [[_ ->]|(ws & m & _ & _ & ->)]; cbn.
    + by apply (page_wf_assigned w f fu cl).
    + by apply page_wf_hydrating, (page_wf_assigned w f fu cl).
  - destruct (bound_area f w); [by apply page_wf_rendered|done].
  - destruct (bound_area f w); [by apply page_wf_rendered|done].
Qed.

Lemma page_wf_app_step e w :
  not_iopub e = true → page_wf w → page_wf (world (App.step e w)).
Proof.
  intros He Hw.
  step_analysis e w ltac:(try discriminate; try done;
    try (by apply (page_wf_frame w))).
  - (* start-up continues, with an output area *)
    destruct Hw as [I1 I2 I3 I4]. split; cbn.
    + intros o [= <-]. rewrite length_app. cbn. lia.
    + intros f fu cl Hf Hcl. rewrite length_app.
      destruct (I2 _ _ _ Hf Hcl). split; [done|lia].
    + intros a g Ha. apply (I3 a g). revert Ha. unfold future_of. cbn.
      destruct (decide (a < length (areas w))) as [Hlt|Hge].
      * by rewrite lookup_app_l.
      * rewrite lookup_app_r by lia.
        by destruct (a - length (areas w)) as [|[|?]].
    + assert (∀ a g, future_of a
        (with_areas (areas w ++ [{| model := []; future := None |}]) w) = Some g →
        future_of a w = Some g) as Hold.
      { intros a g. unfold future_of. cbn.
        destruct (decide (a < length (areas w))) as [Hlt|Hge].
        - by rewrite lookup_app_l.
        - rewrite lookup_app_r by lia.
          by destruct (a - length (areas w)) as [|[|?]]. }
      intros a b g Ha Hb. apply (I4 a b g); by apply Hold.
  - (* a submission *)
    by apply page_wf_submitted.
Qed.

Lemma page_wf_step e w : page_wf w → page_wf (world (Page.step e w)).
Proof.
  intros Hw. destruct (not_iopub e) eqn:He.
  - rewrite page_step_other by done. by apply page_wf_app_step.
  - destruct e; try discriminate. by apply page_wf_deliver.
Qed.

Lemma page_wf_run events w : page_wf w → page_wf (world (Page.run events w)).
Proof.
  revert w. induction events as [|e events IH]; intros w Hw; [done|].
  rewrite page_run_cons. cbn. by apply IH, page_wf_step.
Qed.

Lemma page_reachable_wf w : Page.reachable w → page_wf w.
Proof. intros [events ->]. apply page_wf_run, page_wf_initial. Qed.

End PageInvariant.

(** ** The first message of an execution, and those that follow *)

Section FirstMessage.

Local Open Scope nat_scope.

Implicit Types (w : World) (e : App.Event) (a b o : AreaRef) (f g h : FutureRef).
Implicit Types (msg : IOPubMessage) (fu : Future) (k : KernelRef) (c : string).





(** A task keeps a future, at most taking its closure off. *)
Lemma page_step_future e w f fu :
  futures w !! f = Some fu →
  futures (world (Page.step e w)) !! f = Some fu ∨
  futures (world (Page.step e w)) !! f = Some (Page.drop_closure fu).
Proof.
  intros Hf. destruct (not_iopub e) eqn:He.
  - left. rewrite page_step_other by done. by apply step_future_stable.
  - destruct e as [| | | | | |g msg| | | | | |]; try discriminate. cbn [Page.step].
    rewrite page_deliver_iopub_eq.
    destruct (futures w !! g ≫= onIOPub) as [cl|].
    + assert (futures (assigned (cl_outputArea cl) (cl_future cl) w) !! f = Some fu ∨
              futures (assigned (cl_outputArea cl) (cl_future cl) w) !! f =
                Some (Page.drop_closure fu)) as Hcases.
      { unfold assigned. destruct (areas w !! cl_outputArea cl); [|by left].
        case_bool_decide; [by left|].
        rewrite taken_over_futures, Hf. cbn. case_decide; auto. }
      by destruct (page_handle_iopub_cases (cl_outputArea cl) (cl_future cl) msg w)
        as [[_ ->]|(ws & m & _ & _ & ->)].
    + left. by destruct (bound_area g w).
Qed.



(** Only the closure of a future binds an output area to it. *)
Lemma page_step_set_future e w a f :
  SetFuture a f ∈ effects (Page.step e w) →
  ∃ g fu, futures w !! g = Some fu ∧
    onIOPub fu = Some {| cl_outputArea := a; cl_future := f |}.
Proof.
  destruct (not_iopub e) eqn:Hq.
  - rewrite page_step_other by done. apply step_set_future.
  - destruct e as [| | | | | |g msg| | | | | |]; try discriminate. cbn [Page.step].
    rewrite page_deliver_iopub_eq.
    destruct (futures w !! g) as [fu|] eqn:Hg; cbn;
      [destruct (onIOPub fu) as [[a' f']|] eqn:Hcl; cbn|].
    + intros Hin. exists g, fu. split; [done|]. rewrite Hcl.
      destruct (page_handle_iopub_cases a' f' msg w)
        as [[_ Heq]|(? & ? & ? & ? & Heq)];
        rewrite Heq in Hin; cbn in Hin;
        rewrite !elem_of_cons, elem_of_nil in Hin;
        (destruct Hin as [[= -> ->]|Hin]; [done|exfalso; intuition discriminate]).
    + destruct (bound_area g w); cbn; rewrite elem_of_nil; done.
    + destruct (bound_area g w); cbn; rewrite elem_of_nil; done.
Qed.

Lemma page_run_set_future events w a o f fu :
  page_wf w → futures w !! f = Some fu →
  onIOPub fu = None ∨ onIOPub fu = Some {| cl_outputArea := o; cl_future := f |} →
  SetFuture a f ∈ effects (Page.run events w) → a = o.
Proof.
  revert w fu. induction events as [|e events IH]; intros w fu Hw Hf Hcl.
  - intros Hin. by apply elem_of_nil in Hin.
  - rewrite page_run_cons. cbn. intros [Hin|Hin]%elem_of_app.
    + apply page_step_set_future in Hin as (g & fu' & Hg & Hcl').
      destruct (pw_closure _ Hw _ _ _ Hg Hcl') as [Heq _]. cbn in Heq. subst g.
      destruct Hcl as [Hcl|Hcl]; congruence.
    + destruct (page_step_future e w f fu Hf) as [Hf'|Hf'].
      * by apply (IH _ fu (page_wf_step e w Hw) Hf' Hcl).
      * apply (IH _ _ (page_wf_step e w Hw) Hf'); [by left|done].
Qed.




Lemma ready_world_page_reachable c : Page.reachable (ready_world c).
Proof.
  by exists [App.KernelStarts "python3"; App.ContextReady 0 true;
             App.EditorMounts c].
Qed.

Lemma rendering_world_reachable : Page.reachable rendering_world.
Proof.
  exists [App.KernelStarts "python3"; App.ContextReady 0 true;
          App.EditorMounts "1+1"; App.ClickRun; App.IOPub 0 stream_msg;
          App.IOPub 0 stream_msg].
  by vm_compute.
Qed.

End FirstMessage.

(** ** Clearing, submitting and binding on the page *)

Section ClearSubmitBind.

Local Open Scope nat_scope.

Implicit Types (w : World) (e : App.Event) (a b o : AreaRef) (f g h : FutureRef).
Implicit Types (msg : IOPubMessage) (fu : Future) (k : KernelRef) (c : string).

(** C2, as stated, fails: the model need not be empty immediately before
    the first message of the new execution is processed.  In
    [rendering_world] the guard of [executeCode] holds and the output area
    is bound to execution [0].  The click clears the model and submits
    execution [1]; a late message of execution [0] is then added to the
    model, although no message of execution [1] has been processed (its
    closure is still installed). *)
Lemma late_output_precedes_first_message :
  kernel rendering_world = Some 0 ∧
  outputArea rendering_world = Some 0 ∧
  current_code rendering_world = Some "1+1" ∧
  effects (App.executeCode rendering_world) =
    [ConsoleLog "Executing code:" [AString "1+1"]; ModelClear 0;
     RequestExecute 0 "1+1" 1] ∧
  model_of 0 resubmitted_world = Some [] ∧
  model_of 0 (world (Page.run [App.IOPub 0 stream_msg] resubmitted_world)) =
    Some [stream_msg] ∧
  futures (world (Page.run [App.IOPub 0 stream_msg] resubmitted_world)) !! 1
    ≫= onIOPub = Some {| cl_outputArea := 0; cl_future := 1 |} ∧
  model_of 0 (world (Page.run [App.IOPub 0 stream_msg] resubmitted_world)) ≠
    Some [].
Proof.
  split; [by vm_compute|]. split; [by vm_compute|]. split; [by vm_compute|].
  split; [by vm_compute|]. split; [by vm_compute|]. split; [by vm_compute|].
  split; [by vm_compute|]. vm_compute. discriminate.
Qed.

(** C2, amended: when the guard of [executeCode] holds, the model of the
    output area is cleared before [requestExecute] is called; it is empty
    when [executeCode] returns, whatever it held, and is still empty
    after tasks [quiet] of the event loop none of which is a kernel
    message of an execution; and in every continuation [events] of the
    event loop each call that binds an output area to the new future
    binds the cleared area and comes after the clearing. *)
Theorem executeCode_clears_then_submits w k o c quiet events :
  Page.reachable w →
  kernel w = Some k → outputArea w = Some o → current_code w = Some c → c ≠ "" →
  forallb not_iopub quiet = true →
  let f := length (futures w) in
  let w1 := world (App.executeCode w) in
  let journal := effects (App.executeCode w) ++ effects (Page.run events w1) in
  effects (App.executeCode w) =
    [ConsoleLog "Executing code:" [AString c]; ModelClear o;
     RequestExecute k c f] ∧
  model_of o w1 = Some [] ∧
  model_of o (world (Page.run quiet w1)) = Some [] ∧
  ∀ i a, journal !! i = Some (SetFuture a f) →
    a = o ∧ journal !! 1 = Some (ModelClear o) ∧ 1 < i.
Proof.
  intros Hw%page_reachable_wf Hk Ho Hc Hne Hquiet. cbn zeta.
  rewrite (executeCode_submits w k o c) by done. cbn [effects world fst snd].
  pose proof (pw_outputArea _ Hw _ Ho) as Hlt.
  split; [done|]. split; [by apply submitted_model|].
  split; [rewrite page_run_quiet by done; by apply run_model_empty, submitted_model|].
  intros i a Hi. destruct i as [|[|[|i]]]; try discriminate.
  split; [|split; [done|lia]].
  cbn in Hi. apply list_elem_of_lookup_2 in Hi.
  eapply (page_run_set_future events); [|apply submitted_future| |exact Hi].
  - by apply page_wf_submitted.
  - by right.
Qed.

Lemma executeCode_clears_then_submits_witness :
  Page.reachable rendering_world ∧
  model_of 0 rendering_world = Some [stream_msg] ∧
  let f := length (futures rendering_world) in
  let w1 := world (App.executeCode rendering_world) in
  let journal :=
    effects (App.executeCode rendering_world) ++
    effects (Page.run [App.IOPub 0 stream_msg; App.IOPub 1 stream_msg] w1) in
  effects (App.executeCode rendering_world) =
    [ConsoleLog "Executing code:" [AString "1+1"]; ModelClear 0;
     RequestExecute 0 "1+1" f] ∧
  model_of 0 w1 = Some [] ∧
  model_of 0 (world (Page.run [App.FutureSettles 0 None; App.EditorChanges "2+2"]
                       w1)) = Some [] ∧
  ∀ i a, journal !! i = Some (SetFuture a f) →
    a = 0 ∧ journal !! 1 = Some (ModelClear 0) ∧ 1 < i.
Proof.
  split; [exact rendering_world_reachable|]. split; [by vm_compute|].
  apply (executeCode_clears_then_submits rendering_world 0 0 "1+1"
           [App.FutureSettles 0 None; App.EditorChanges "2+2"]
           [App.IOPub 0 stream_msg; App.IOPub 1 stream_msg]
           rendering_world_reachable);
    [by vm_compute | by vm_compute | by vm_compute | done | reflexivity].
Defined.



End ClearSubmitBind.

(** ** Futures and supersession on the page *)

Section Supersession.

Local Open Scope nat_scope.

Implicit Types (w : World) (e : App.Event) (a b o : AreaRef) (f g h : FutureRef).
Implicit Types (msg : IOPubMessage) (fu : Future).

Lemma coherent_frame w w' :
  coherent w →
  kernel w' = kernel w → kernelStarted w' = kernelStarted w →
  managerRef w' = managerRef w → outputArea w' = outputArea w →
  kernels w' = kernels w →
  (∀ f fu', futures w' !! f = Some fu' →
     ∃ fu, futures w !! f = Some fu ∧ (fu' = fu ∨ fu' = Page.drop_closure fu)) →
  coherent w'.
Proof.
  intros [I1 I2 I3 I4 I5] Hk Hs Hm Ho Hks Hfut.
  split; rewrite ?Hk, ?Hs, ?Hm, ?Ho, ?Hks; try done.
  intros f fu' (fu & Hf & [->| ->])%Hfut; cbn; by apply (I4 f).
Qed.

Lemma coherent_assigned a f w : coherent w → coherent (assigned a f w).
Proof.
  intros Hw.
  destruct (assigned_frame a f w) as (_ & ? & ? & ? & ? & ? & _).
  apply (coherent_frame w); try done.
  intros h fu'. unfold assigned.
  destruct (areas w !! a); [|by eauto].
  case_bool_decide; [by eauto|].
  rewrite taken_over_futures.
  destruct (futures w !! h) as [fu|]; [|done]. cbn.
  intros [= <-]. exists fu. split; [done|]. case_decide; auto.
Qed.

Lemma coherent_deliver f msg w :
  coherent w → coherent (world (Page.deliver_iopub f msg w)).
Proof.
  intros Hw. rewrite page_deliver_iopub_eq.
  destruct (futures w !! f ≫= onIOPub) as [cl|].
  - destruct (page_handle_iopub_cases (cl_outputArea cl) (cl_future cl) msg w)
      as [[_ ->]|(ws & m & _ & _ & ->)]; cbn [world fst snd].
    + by apply coherent_assigned.
    + apply (coherent_frame (assigned (cl_outputArea cl) (cl_future cl) w));
        [by apply coherent_assigned|done..|by eauto].
  - destruct (bound_area f w); [|done].
    apply (coherent_frame w); try done. by eauto.
Qed.

Lemma page_coherent_step e w : coherent w → coherent (world (Page.step e w)).
Proof.
  intros Hw. destruct (not_iopub e) eqn:He.
  - rewrite page_step_other by done. by apply coherent_step.
  - destruct e; try discriminate. by apply coherent_deliver.
Qed.

Lemma page_reachable_coherent w : Page.reachable w → coherent w.
Proof.
  intros [events ->]. generalize coherent_initial. generalize initial.
  induction events as [|e events IH]; intros w Hw; [done|].
  rewrite page_run_cons. cbn [world fst snd]. by apply IH, page_coherent_step.
Qed.

(** X1: on the page every future has its completion reactions attached
    and was submitted with non-empty code on a kernel connection that
    exists; as long as the closure [executeCode] gave it is installed
    (no message of it has arrived), the closure captures that same future
    and an output area that exists, and no output area is bound to the
    future. *)
Theorem futures_are_wired w f fu :
  Page.reachable w → futures w !! f = Some fu →
  done_watched fu = true ∧ fut_code fu ≠ "" ∧
  fut_kernel fu < length (kernels w) ∧
  ∀ cl, onIOPub fu = Some cl →
    cl_future cl = f ∧ cl_outputArea cl < length (areas w) ∧
    ∀ a, future_of a w ≠ Some f.
Proof.
  intros Hw Hf.
  destruct (co_futures _ (page_reachable_coherent _ Hw) f fu Hf) as (? & ? & ?).
  apply page_reachable_wf in Hw.
  split; [done|]. split; [done|]. split; [done|].
  intros cl Hcl. destruct (pw_closure _ Hw f fu cl Hf Hcl) as [? ?].
  split; [done|]. split; [done|].
  intros a. exact (unbound_while_installed w f fu cl a Hw Hf Hcl).
Qed.

Lemma futures_are_wired_witness :
  Page.reachable resubmitted_world ∧
  futures resubmitted_world !! 1 =
    Some {| fut_kernel := 0; fut_code := "1+1";
            onIOPub := Some {| cl_outputArea := 0; cl_future := 1 |};
            done_watched := true |} ∧
  fut_kernel {| fut_kernel := 0; fut_code := "1+1";
                onIOPub := Some {| cl_outputArea := 0; cl_future := 1 |};
                done_watched := true |} < length (kernels resubmitted_world) ∧
  ∀ a, future_of a resubmitted_world ≠ Some 1.
Proof.
  assert (Page.reachable resubmitted_world) as Hr.
  { exists [App.KernelStarts "python3"; App.ContextReady 0 true;
            App.EditorMounts "1+1"; App.ClickRun; App.IOPub 0 stream_msg;
            App.IOPub 0 stream_msg; App.ClickRun].
    by vm_compute. }
  split; [exact Hr|]. split; [by vm_compute|].
  destruct (futures_are_wired resubmitted_world 1 _ Hr
              ltac:(by vm_compute)) as (_ & _ & Hk & Hcl).
  split; [exact Hk|]. by apply (Hcl _ eq_refl).
Defined.



End Supersession.
